(** * go/v8/binding.cc: the worker binding between a host and a V8 isolate

    A shallow embedding of [binding.cc].  The V8 engine and the host's cgo
    exports ([getModuleSource], [recvCb], [recvSyncCb]) are collaborators
    of the file:

    - the engine is a record [V8] of what its compilers answer; a compiled
      script is the sequence of calls it makes to the globals the worker
      installs ([$recv], [$recvSync], [$send], [$sendSync]) and how it
      completes;
    - the host is a record [Host]; its callbacks receive the worker id and a
      message, and do not call back into the worker;
    - [v8::Locker] is scoped and re-entrant for the thread that owns it; its
      constructor and destructor are events of the trace;
    - a [const char*] is read up to its first NUL: [until_nul] is applied
      wherever the file turns a JavaScript string, or an answer of the
      host, into a C string; the strings the host passes in ([url_s],
      [name_s], [source_s], [msg]) are C strings already, and the module
      requests are taken as [ToStdString] reads them.

    Every call that leaves the file is recorded, in order, in the trace
    [events]. *)

From Stdlib Require Import ZArith Lia Ascii String.
From stdpp Require Import base option list strings gmap pretty.

Local Open Scope Z_scope.

(** ** Strings of the file *)

Definition nl : string := String "010"%char EmptyString.

(** What a [const char*] reader sees of a string: the characters before
    the first NUL. *)
Fixpoint until_nul (s : string) : string :=
  match s with
  | EmptyString => EmptyString
  | String c s => if decide (c = "000"%char) then EmptyString
                  else String c (until_nul s)
  end.

Definition nul_free (s : string) : Prop :=
  "000"%char ∉ list_ascii_of_string s.

(** [ToCString]: a [String::Utf8Value] is [None] when [*value] is null. *)
Definition ToCString (value : option string) : string :=
  match value with
  | Some s => s
  | None => "<v8worker: string conversion failed>"
  end.

(** [String::Utf8Value::length]. *)
Definition Utf8Value_length (value : option string) : nat :=
  match value with
  | Some s => String.length s
  | None => 0%nat
  end.

(** [CopyString]: the C string [strcpy] copies (its allocation is
    [CopyString_allocated] below). *)
Definition CopyString (value : string) : string := until_nul value.

(** [for (int i = from; i < to; i++) body] on an accumulator. *)
Definition for_loop {A : Type} (from to : Z) (body : A → A) (a : A) : A :=
  Nat.iter (Z.to_nat (to - from)) body a.

(** ** What the engine reports about an exception *)

(** [v8::Message], as [ExceptionString] reads it. *)
Record Message : Type := {
  ResourceName : option string;
  GetLineNumber : Z;
  GetSourceLine : option string;
  GetStartColumn : option Z;
  GetEndColumn : option Z
}.

(** What a [v8::TryCatch] that has caught holds. *)
Record Thrown : Type := {
  Exception : option string;
  GetMessage : option Message;
  StackTrace : option string
}.

(** [ExceptionString(isolate, context, try_catch)]; [try_catch] is [None]
    when nothing was caught (all its handles are empty).  [out.append] of
    a [const char*] appends its characters up to the first NUL. *)
Definition ExceptionString (try_catch : option Thrown) : string :=
  let out := "" in
  let exception_string := ToCString (try_catch ≫= Exception) in
  match try_catch ≫= GetMessage with
  | None =>
      let out := out +:+ until_nul exception_string in
      out +:+ nl
  | Some message =>
      let filename_string := ToCString (ResourceName message) in
      let linenum := GetLineNumber message in
      let scratch := pretty linenum in
      let out := out +:+ until_nul filename_string in
      let out := out +:+ ":" in
      let out := out +:+ until_nul scratch in
      let out := out +:+ nl in
      let sourceline_string := ToCString (GetSourceLine message) in
      let out := out +:+ until_nul sourceline_string in
      let out := out +:+ nl in
      let start := default 0 (GetStartColumn message) in
      let out := for_loop 0 start (λ out, out +:+ " ") out in
      let end_ := default 0 (GetEndColumn message) in
      let out := for_loop start end_ (λ out, out +:+ "^") out in
      let out := out +:+ nl in
      let stack_trace := try_catch ≫= StackTrace in
      if decide (0 < Utf8Value_length stack_trace)%nat then
        let out := out +:+ until_nul (ToCString stack_trace) in
        out +:+ nl
      else
        let out := out +:+ until_nul exception_string in
        out +:+ nl
  end.

(** The layout the diagnostic is described by: [n] copies of a character. *)
Fixpoint repeat_string (n : nat) (s : string) : string :=
  match n with
  | O => ""
  | S n => s +:+ repeat_string n s
  end.

(** The diagnostic as it is described: resource name and line number, the
    source line, the underline, and the stack trace if it is not empty or
    else the exception message, each on a line of its own. *)
Definition Diagnostic_layout (t : Thrown) : string :=
  match GetMessage t with
  | Some message =>
      let start := default 0 (GetStartColumn message) in
      let end_ := default 0 (GetEndColumn message) in
      ToCString (ResourceName message) +:+ ":" +:+
        pretty (GetLineNumber message) +:+ nl +:+
      ToCString (GetSourceLine message) +:+ nl +:+
      repeat_string (Z.to_nat start) " " +:+
        repeat_string (Z.to_nat (end_ - start)) "^" +:+ nl +:+
      match StackTrace t with
      | Some (String c trace) => String c trace
      | _ => ToCString (Exception t)
      end +:+ nl
  | None => ToCString (Exception t) +:+ nl
  end.

(** ** Scripts *)

(** A JavaScript value as the binding tells them apart, and a running
    script: the calls it makes to the worker's globals, then its
    completion. *)
Inductive Value : Type :=
  | VString (s : string)
  | VFunction (call : string → Script)
  | VOther
with Script : Type :=
  | Return (v : Value)
  | Throw (e : Thrown)
  | Call_recv (arg : Value) (k : Script)
  | Call_recvSync (arg : Value) (k : Script)
  | Call_send (arg : Value) (k : Script)
  | Call_sendSync (arg : Value) (k : string → Script).

Definition Function : Type := string → Script.

(** A compiled module: [GetModuleRequest(i)], [InstantiateModule] given the
    resolve callback ([inl]: an empty [Maybe] with an exception pending),
    and the script [Evaluate] runs. *)
Record ModuleCode : Type := {
  GetModuleRequests : list string;
  InstantiateModule : (string → option nat) → Thrown + bool;
  Evaluate : Script
}.

(** A [Local<Module>]: the identity of the module object and its code.
    Every compilation makes a new module object; the worker hands out the
    identities in [next_module]. *)
Record Module : Type := {
  identity : nat;
  code : ModuleCode
}.

Record V8 : Type := {
  (** [ScriptCompiler::CompileModule] on (resource name, source text) *)
  CompileModule : string → string → Thrown + ModuleCode;
  (** [Script::Compile] on (resource name, source text) *)
  Compile : string → string → Thrown + Script
}.

Record Host : Type := {
  getModuleSource : Z → string → string;
  recvSyncCb : Z → string → string
}.

Inductive Event : Type :=
  | Locker_acquire
  | Locker_release
  | getModuleSource_call (id : Z) (url : string)
  | CompileModule_call (url : string)
  | recvCb_call (id : Z) (msg : string)
  | recvSyncCb_call (id : Z) (msg : string).

(** ** The worker *)

(** [class ModuleData]; a [Global<Module>] is the identity of its module. *)
Record ModuleData : Type := {
  url_to_module_map : gmap string nat;
  module_to_url_map : gmap nat string
}.

(** [struct worker_s] with what its isolate and context hold: the module
    data of the context, the next module identity of the heap, the
    innermost [TryCatch], and the trace. *)
Record worker : Type := {
  id : Z;
  last_exception : string;
  recv : option Function;
  recv_sync_handler : option Function;
  module_data : ModuleData;
  next_module : nat;
  try_catch : option Thrown;
  events : list Event
}.

Definition set_last_exception (s : string) (w : worker) : worker :=
  {| id := id w; last_exception := s; recv := recv w;
     recv_sync_handler := recv_sync_handler w; module_data := module_data w;
     next_module := next_module w; try_catch := try_catch w;
     events := events w |}.

Definition set_recv (f : option Function) (w : worker) : worker :=
  {| id := id w; last_exception := last_exception w; recv := f;
     recv_sync_handler := recv_sync_handler w; module_data := module_data w;
     next_module := next_module w; try_catch := try_catch w;
     events := events w |}.

Definition set_recv_sync_handler (f : option Function) (w : worker) : worker :=
  {| id := id w; last_exception := last_exception w; recv := recv w;
     recv_sync_handler := f; module_data := module_data w;
     next_module := next_module w; try_catch := try_catch w;
     events := events w |}.

Definition set_module_data (d : ModuleData) (w : worker) : worker :=
  {| id := id w; last_exception := last_exception w; recv := recv w;
     recv_sync_handler := recv_sync_handler w; module_data := d;
     next_module := next_module w; try_catch := try_catch w;
     events := events w |}.

Definition set_next_module (n : nat) (w : worker) : worker :=
  {| id := id w; last_exception := last_exception w; recv := recv w;
     recv_sync_handler := recv_sync_handler w; module_data := module_data w;
     next_module := n; try_catch := try_catch w;
     events := events w |}.

Definition set_try_catch (t : option Thrown) (w : worker) : worker :=
  {| id := id w; last_exception := last_exception w; recv := recv w;
     recv_sync_handler := recv_sync_handler w; module_data := module_data w;
     next_module := next_module w; try_catch := t;
     events := events w |}.

Definition emit (e : Event) (w : worker) : worker :=
  {| id := id w; last_exception := last_exception w; recv := recv w;
     recv_sync_handler := recv_sync_handler w; module_data := module_data w;
     next_module := next_module w; try_catch := try_catch w;
     events := events w ++ [e] |}.

(** How a call ends: it returns, the process dies on a failed [assert] or
    on an empty handle that is dereferenced, or the model ran out of
    recursion depth. *)
Inductive Result (A : Type) : Type :=
  | Done (a : A)
  | Crash
  | OutOfFuel.
Arguments Done {A} a.
Arguments Crash {A}.
Arguments OutOfFuel {A}.

Definition bind {A B : Type} (r : Result A) (f : A → Result B) : Result B :=
  match r with
  | Done a => f a
  | Crash => Crash
  | OutOfFuel => OutOfFuel
  end.

Notation "x ←! r ; k" := (bind r (λ x, k))
  (at level 20, r at level 100, k at level 200, right associativity,
   format "x  ←!  r ;  '/' k").
Notation "' p ←! r ; k" := (bind r (λ x, let 'p := x in k))
  (at level 20, p pattern, r at level 100, k at level 200, right associativity,
   format "' p  ←!  r ;  '/' k").

(** [std::unordered_map::insert]: nothing happens when the key is there. *)
Definition umap_insert `{Countable K} {V : Type} (k : K) (v : V)
    (m : gmap K V) : gmap K V :=
  match m !! k with
  | Some _ => m
  | None => <[k := v]> m
  end.

(** A [Maybe<A>] of the engine: empty ([inl]) with the exception it left
    pending, which the innermost [TryCatch] catches. *)
Definition FromMaybe {A : Type} (default : A) (maybe : Thrown + A) : A :=
  match maybe with
  | inl _ => default
  | inr a => a
  end.

Definition catch {A : Type} (maybe : Thrown + A) (w : worker) : worker :=
  match maybe with
  | inl e => set_try_catch (Some e) w
  | inr _ => w
  end.

(** [InitModuleData] and [worker_init]; [enable_print] only decides
    whether [$print] is installed. *)
Definition InitModuleData : ModuleData :=
  {| url_to_module_map := ∅; module_to_url_map := ∅ |}.

Definition worker_init (id enable_print : Z) : worker :=
  {| id := id; last_exception := ""; recv := None; recv_sync_handler := None;
     module_data := InitModuleData; next_module := 0%nat; try_catch := None;
     events := [Locker_acquire; Locker_release] |}.

(** [ResolveModuleCallback]: [None] is the dereference of [end()]. *)
Definition ResolveModuleCallback (d : ModuleData) (url : string) : option nat :=
  url_to_module_map d !! url.

(** *** The globals a script calls *)

(** [Recv]: the [$recv] function. *)
Definition Recv (arg : Value) (w : worker) : Result worker :=
  match arg with
  | VFunction func => Done (set_recv (Some func) w)
  | _ => Crash
  end.

(** [RecvSync]: the [$recvSync] function. *)
Definition RecvSync (arg : Value) (w : worker) : Result worker :=
  match arg with
  | VFunction func => Done (set_recv_sync_handler (Some func) w)
  | _ => Crash
  end.

Section Binding.
Context (host : Host) (v8 : V8).

(** [Send]: the [$send] function. *)
Definition Send (arg : Value) (w : worker) : Result worker :=
  let w := emit Locker_acquire w in
  match arg with
  | VString str =>
      let msg := until_nul (ToCString (Some str)) in
      let w := emit Locker_release w in
      Done (emit (recvCb_call (id w) msg) w)
  | _ => Crash
  end.

(** [SendSync]: the [$sendSync] function; the string is its return value. *)
Definition SendSync (arg : Value) (w : worker) : Result (string * worker) :=
  let w := emit Locker_acquire w in
  match arg with
  | VString str =>
      let msg := until_nul (ToCString (Some str)) in
      let w := emit Locker_release w in
      let returnMsg := recvSyncCb host (id w) msg in
      let w := emit (recvSyncCb_call (id w) msg) w in
      let returnV := until_nul returnMsg in
      Done (returnV, w)
  | _ => Crash
  end.

(** Running a script under the innermost [TryCatch]: the value it
    returns, or [None] (an empty handle) with the exception caught. *)
Fixpoint run (s : Script) (w : worker) : Result (option Value * worker) :=
  match s with
  | Return v => Done (Some v, w)
  | Throw e => Done (None, set_try_catch (Some e) w)
  | Call_recv arg k => w ←! Recv arg w; run k w
  | Call_recvSync arg k => w ←! RecvSync arg w; run k w
  | Call_send arg k => w ←! Send arg w; run k w
  | Call_sendSync arg k => '(returnV, w) ←! SendSync arg w; run (k returnV) w
  end.

(** The loop of [LoadModule] over the module requests; [false] when a
    submodule came back empty. *)
Fixpoint load_requests (load : string → worker → Result (option Module * worker))
    (requests : list string) (w : worker) : Result (bool * worker) :=
  match requests with
  | [] => Done (true, w)
  | name :: requests =>
      '(submodule, w) ←! load name w;
      match submodule with
      | None => Done (false, w)
      | Some _ => load_requests load requests w
      end
  end.

(** [LoadModule(w, context, url, mod)]; the result is [mod]. *)
Fixpoint LoadModule (fuel : nat) (url : string) (w : worker)
    : Result (option Module * worker) :=
  match fuel with
  | O => OutOfFuel
  | S fuel =>
      let url_str := url in
      let source_str := getModuleSource host (id w) url_str in
      let source_text := until_nul source_str in
      let w := emit (getModuleSource_call (id w) url_str) w in
      let w := emit (CompileModule_call url) w in
      match CompileModule v8 url source_text with
      | inl e => Done (None, set_try_catch (Some e) w)
      | inr compiled =>
          let module := {| identity := next_module w; code := compiled |} in
          let w := set_next_module (S (next_module w)) w in
          let d := module_data w in
          let d :=
            {| url_to_module_map :=
                 umap_insert url_str (identity module) (url_to_module_map d);
               module_to_url_map := module_to_url_map d |} in
          let d :=
            {| url_to_module_map := url_to_module_map d;
               module_to_url_map :=
                 umap_insert (identity module) url_str (module_to_url_map d) |} in
          let w := set_module_data d w in
          '(loaded, w) ←!
            load_requests (LoadModule fuel) (GetModuleRequests compiled) w;
          if loaded : bool then Done (Some module, w) else Done (None, w)
      end
  end.

(** [worker_load_module]. *)
Definition worker_load_module (fuel : nat) (url_s : string) (w : worker)
    : Result (Z * worker) :=
  let w := emit Locker_acquire w in
  let w := set_try_catch None w in
  '(mod_, w) ←! LoadModule fuel url_s w;
  match mod_ with
  | None =>
      let w := set_last_exception (ExceptionString (try_catch w)) w in
      Done (1, emit Locker_release w)
  | Some module =>
      let instantiated :=
        InstantiateModule (code module) (ResolveModuleCallback (module_data w)) in
      let w := catch instantiated w in
      if negb (FromMaybe false instantiated) then
        let w := set_last_exception (ExceptionString (try_catch w)) w in
        Done (2, emit Locker_release w)
      else
        '(maybe_result, w) ←! run (Evaluate (code module)) w;
        match maybe_result with
        | None =>
            let w := set_last_exception (ExceptionString (try_catch w)) w in
            Done (3, emit Locker_release w)
        | Some _ => Done (0, emit Locker_release w)
        end
  end.

(** [worker_load_script]. *)
Definition worker_load_script (name_s source_s : string) (w : worker)
    : Result (Z * worker) :=
  let w := emit Locker_acquire w in
  let w := set_try_catch None w in
  match Compile v8 name_s source_s with
  | inl e =>
      let w := set_try_catch (Some e) w in
      let w := set_last_exception (ExceptionString (try_catch w)) w in
      Done (1, emit Locker_release w)
  | inr script =>
      '(result, w) ←! run script w;
      match result with
      | None =>
          let w := set_last_exception (ExceptionString (try_catch w)) w in
          Done (2, emit Locker_release w)
      | Some _ => Done (0, emit Locker_release w)
      end
  end.

(** [worker_send]. *)
Definition worker_send (msg : string) (w : worker) : Result (Z * worker) :=
  let w := emit Locker_acquire w in
  let w := set_try_catch None w in
  match recv w with
  | None =>
      let w :=
        set_last_exception "v8worker: callback not registered with $recv" w in
      Done (1, emit Locker_release w)
  | Some recv =>
      '(_, w) ←! run (recv msg) w;
      if decide (is_Some (try_catch w)) then
        let w := set_last_exception (ExceptionString (try_catch w)) w in
        Done (2, emit Locker_release w)
      else Done (0, emit Locker_release w)
  end.

(** [worker_send_sync]; no [TryCatch] is declared here, and the handle
    the call returns is dereferenced as it is. *)
Definition worker_send_sync (msg : string) (w : worker)
    : Result (string * worker) :=
  let out := "" in
  let w := emit Locker_acquire w in
  match recv_sync_handler w with
  | None =>
      let out := out +:+ "v8worker: callback not registered with $recvSync" in
      Done (CopyString out, emit Locker_release w)
  | Some recv_sync_handler =>
      '(response_value, w) ←! run (recv_sync_handler msg) w;
      match response_value with
      | None => Crash
      | Some (VString response) =>
          let out := out +:+ until_nul response in
          Done (CopyString out, emit Locker_release w)
      | Some _ =>
          let out := out +:+ "v8worker: non-string return value" in
          Done (CopyString out, emit Locker_release w)
      end
  end.

End Binding.

(** ** What the statements below speak of *)

(** What compiling the module the host serves for [url] answers. *)
Definition compiled (host : Host) (v8 : V8) (wid : Z) (url : string)
    : Thrown + ModuleCode :=
  CompileModule v8 url (until_nul (getModuleSource host wid url)).

(** [reach url v]: [v] is [url] or an import, at any depth, of modules that
    compile. *)
Inductive reach (host : Host) (v8 : V8) (wid : Z) : string → string → Prop :=
  | reach_here url : reach host v8 wid url url
  | reach_import url compiled_url name v :
      compiled host v8 wid url = inr compiled_url →
      name ∈ GetModuleRequests compiled_url →
      reach host v8 wid name v →
      reach host v8 wid url v.

(** No import cycle is in reach of [root]: from the modules in its reach
    the imports go down a rank. *)
Definition acyclic_from (host : Host) (v8 : V8) (wid : Z)
    (rank : string → nat) (root : string) : Prop :=
  ∀ url compiled_url name,
    reach host v8 wid root url →
    compiled host v8 wid url = inr compiled_url →
    name ∈ GetModuleRequests compiled_url →
    (rank name < rank url)%nat.

(** How often the trace asks the host for [url], and compiles it. *)
Fixpoint fetches (url : string) (tr : list Event) : nat :=
  match tr with
  | [] => 0
  | getModuleSource_call _ u :: tr =>
      if decide (u = url) then S (fetches url tr) else fetches url tr
  | _ :: tr => fetches url tr
  end.

Fixpoint compilations (url : string) (tr : list Event) : nat :=
  match tr with
  | [] => 0
  | CompileModule_call u :: tr =>
      if decide (u = url) then S (compilations url tr) else compilations url tr
  | _ :: tr => compilations url tr
  end.

(** How many [Locker]s of the thread are alive after [tr], from [depth]. *)
Fixpoint lock_depth (depth : Z) (tr : list Event) : Z :=
  match tr with
  | [] => depth
  | Locker_acquire :: tr => lock_depth (depth + 1) tr
  | Locker_release :: tr => lock_depth (depth - 1) tr
  | _ :: tr => lock_depth depth tr
  end.

(** The lock depth at each call of [recvCb] and [recvSyncCb] in [tr]. *)
Fixpoint callback_depths (depth : Z) (tr : list Event) : list Z :=
  match tr with
  | [] => []
  | Locker_acquire :: tr => callback_depths (depth + 1) tr
  | Locker_release :: tr => callback_depths (depth - 1) tr
  | recvCb_call _ _ :: tr => depth :: callback_depths depth tr
  | recvSyncCb_call _ _ :: tr => depth :: callback_depths depth tr
  | _ :: tr => callback_depths depth tr
  end.

(** The two maps of the module data are inverses of each other. *)
Definition inverse_maps (d : ModuleData) : Prop :=
  ∀ url module,
    url_to_module_map d !! url = Some module ↔
    module_to_url_map d !! module = Some url.

(** A call of one of the four entry points that returns. *)
Inductive entry_call (host : Host) (v8 : V8) : worker → worker → Prop :=
  | call_load_script name_s source_s w rc w' :
      worker_load_script host v8 name_s source_s w = Done (rc, w') →
      entry_call host v8 w w'
  | call_load_module fuel url_s w rc w' :
      worker_load_module host v8 fuel url_s w = Done (rc, w') →
      entry_call host v8 w w'
  | call_send msg w rc w' :
      worker_send host msg w = Done (rc, w') →
      entry_call host v8 w w'
  | call_send_sync msg w out w' :
      worker_send_sync host msg w = Done (out, w') →
      entry_call host v8 w w'.

(** A call that reports success: code 0 of the three loaders and senders,
    and any return of [worker_send_sync]. *)
Inductive succeeds (host : Host) (v8 : V8) : worker → worker → Prop :=
  | load_script_0 name_s source_s w w' :
      worker_load_script host v8 name_s source_s w = Done (0, w') →
      succeeds host v8 w w'
  | load_module_0 fuel url_s w w' :
      worker_load_module host v8 fuel url_s w = Done (0, w') →
      succeeds host v8 w w'
  | send_0 msg w w' :
      worker_send host msg w = Done (0, w') →
      succeeds host v8 w w'
  | send_sync_any msg w out w' :
      worker_send_sync host msg w = Done (out, w') →
      succeeds host v8 w w'.

(** What a script may do to the worker: register receivers, leave an
    exception in the [TryCatch], and call the host.  [new] is what it adds
    to the trace. *)
Definition script_step (w w' : worker) (new : list Event) : Prop :=
  id w' = id w ∧ last_exception w' = last_exception w ∧
  module_data w' = module_data w ∧ next_module w' = next_module w ∧
  events w' = events w ++ new ∧
  (∀ d, lock_depth d new = d) ∧
  (∀ d, Forall (λ x, x = d) (callback_depths d new)).

(** The worker after [LoadModule] has asked the host and the compiler for
    [url], and after it has entered the module it got in the two maps. *)
Definition fetched (url : string) (w : worker) : worker :=
  emit (CompileModule_call url) (emit (getModuleSource_call (id w) url) w).

Definition inserted (url : string) (w : worker) : worker :=
  set_module_data
    {| url_to_module_map :=
         umap_insert url (next_module w) (url_to_module_map (module_data w));
       module_to_url_map :=
         umap_insert (next_module w) url (module_to_url_map (module_data w)) |}
    (set_next_module (S (next_module w)) (fetched url w)).

(** What loading modules may do to the worker: the receivers and the last
    exception stay, the trace grows by calls for module texts and
    compilations, and the maps only gain modules that compiled. *)
Definition loader_step (host : Host) (v8 : V8) (w w' : worker)
    (new : list Event) : Prop :=
  id w' = id w ∧ last_exception w' = last_exception w ∧
  recv w' = recv w ∧ recv_sync_handler w' = recv_sync_handler w ∧
  events w' = events w ++ new ∧
  (∀ d, lock_depth d new = d) ∧
  (∀ d, callback_depths d new = []) ∧
  (∀ u, url_to_module_map (module_data w') !! u
          ≠ url_to_module_map (module_data w) !! u →
        ∃ c, compiled host v8 (id w) u = inr c) ∧
  (∀ h u, module_to_url_map (module_data w') !! h = Some u →
          module_to_url_map (module_data w) !! h = Some u ∨
          ∃ c, compiled host v8 (id w) u = inr c).

(** What [LoadModule] answers for [url]: an empty [mod] comes with the
    exception of a module in reach that does not compile, a module with
    everything in reach compiled. *)
Definition loader_answer (host : Host) (v8 : V8) (url : string)
    (w w' : worker) (mod_ : option Module) : Prop :=
  match mod_ with
  | None =>
      ∃ v e, reach host v8 (id w) url v ∧
        compiled host v8 (id w) v = inl e ∧ try_catch w' = Some e
  | Some module =>
      try_catch w' = try_catch w ∧
      compiled host v8 (id w) url = inr (code module) ∧
      ∀ v, reach host v8 (id w) url v → ∃ c, compiled host v8 (id w) v = inr c
  end.

(** ** A host and an engine to run the binding on *)

Module Demo.

(** The module texts the host serves. *)
Definition sources (url : string) : string :=
  if decide (url = "a") then "import 'b'"
  else if decide (url = "b") then "import 'a'"
  else if decide (url = "leaf") then "export {}"
  else if decide (url = "top") then "import 'left'; import 'right'"
  else if decide (url = "left") then "import 'leaf'"
  else if decide (url = "right") then "import 'leaf'"
  else if decide (url = "root") then "import 'mid'"
  else if decide (url = "mid") then "import 'bad'"
  else if decide (url = "root2") then "import 'a'; import 'bad'"
  else if decide (url = "root3") then "import 'hub'"
  else if decide (url = "hub") then "import 'a'; import 'bad'"
  else "export =".

Definition host : Host :=
  {| getModuleSource := λ _ url, sources url;
     recvSyncCb := λ _ msg, msg |}.

(** The import declarations of a module text; [None]: it does not parse. *)
Definition imports (source : string) : option (list string) :=
  if decide (source = "import 'b'") then Some ["b"]
  else if decide (source = "import 'a'") then Some ["a"]
  else if decide (source = "export {}") then Some []
  else if decide (source = "import 'left'; import 'right'") then Some ["left"; "right"]
  else if decide (source = "import 'leaf'") then Some ["leaf"]
  else if decide (source = "import 'mid'") then Some ["mid"]
  else if decide (source = "import 'bad'") then Some ["bad"]
  else if decide (source = "import 'a'; import 'bad'") then Some ["a"; "bad"]
  else if decide (source = "import 'hub'") then Some ["hub"]
  else None.

Definition syntax_error (name source : string) : Thrown :=
  {| Exception := Some "SyntaxError: Unexpected token =";
     GetMessage :=
       Some {| ResourceName := Some name; GetLineNumber := 1;
               GetSourceLine := Some source;
               GetStartColumn := Some 7; GetEndColumn := Some 8 |};
     StackTrace := Some "SyntaxError: Unexpected token =" |}.

Definition type_error : Thrown :=
  {| Exception := Some "TypeError: x is not a function";
     GetMessage :=
       Some {| ResourceName := Some "main.js"; GetLineNumber := 3;
               GetSourceLine := Some "  x(m)";
               GetStartColumn := Some 2; GetEndColumn := Some 3 |};
     StackTrace := None |}.

(** The receivers the scripts register. *)
Definition echo : Function := λ m, Call_send (VString m) (Return VOther).
Definition thrower : Function := λ _, Throw type_error.
Definition answer : Function := λ m, Return (VString m).
Definition number : Function := λ _, Return VOther.

(** The scripts the engine knows. *)
Definition scripts (source : string) : option Script :=
  if decide (source = "$recv(m => $send(m))")
  then Some (Call_recv (VFunction echo) (Return VOther))
  else if decide (source = "$recv(m => x(m))")
  then Some (Call_recv (VFunction thrower) (Return VOther))
  else if decide (source = "$recvSync(m => m)")
  then Some (Call_recvSync (VFunction answer) (Return VOther))
  else if decide (source = "$recvSync(m => 1)")
  then Some (Call_recvSync (VFunction number) (Return VOther))
  else if decide (source = "$send($sendSync('ping'))")
  then Some (Call_sendSync (VString "ping") (λ r, Call_send (VString r) (Return VOther)))
  else None.

(** A module that links and evaluates to nothing. *)
Definition importing (requests : list string) : ModuleCode :=
  {| GetModuleRequests := requests;
     InstantiateModule := λ _, inr true;
     Evaluate := Return VOther |}.

Definition v8 : V8 :=
  {| CompileModule := λ name source,
       match imports source with
       | Some requests => inr (importing requests)
       | None => inl (syntax_error name source)
       end;
     Compile := λ name source,
       match scripts source with
       | Some script => inr script
       | None => inl (syntax_error name source)
       end |}.

(** The imports in reach of [top] and of [root] go down this rank. *)
Definition rank (url : string) : nat :=
  if decide (url = "leaf") then 0
  else if decide (url = "left") then 1
  else if decide (url = "right") then 1
  else if decide (url = "top") then 2
  else if decide (url = "mid") then 1
  else if decide (url = "root") then 2
  else 0.

(** An exception whose message holds a NUL, as [throw new Error("a\0b")]
    gives, and one whose stack trace starts with a NUL. *)
Definition nul : string := String "000"%char EmptyString.

Definition error_with_nul : Thrown :=
  {| Exception := Some ("Error: a" +:+ nul +:+ "b");
     GetMessage :=
       Some {| ResourceName := Some "main.js"; GetLineNumber := 1;
               GetSourceLine := Some "throw new Error(m)";
               GetStartColumn := Some 0; GetEndColumn := Some 5 |};
     StackTrace := Some ("Error: a" +:+ nul +:+ "b at main.js:1:7") |}.

Definition error_nul_first : Thrown :=
  {| Exception := Some "boom";
     GetMessage :=
       Some {| ResourceName := Some "main.js"; GetLineNumber := 1;
               GetSourceLine := Some "throw e";
               GetStartColumn := Some 0; GetEndColumn := Some 5 |};
     StackTrace := Some (nul +:+ "boom") |}.

Definition code_of (r : Result (Z * worker)) : option Z :=
  match r with
  | Done (rc, _) => Some rc
  | _ => None
  end.

Definition worker_of (r : Result (Z * worker)) (otherwise : worker) : worker :=
  match r with
  | Done (_, w) => w
  | _ => otherwise
  end.

(** Workers the statements are tried on: one whose [$recv] receiver
    echoes through [$send], one whose last call failed, and one that has
    loaded [leaf] once and twice. *)
Definition fresh : worker := worker_init 1 0.

Definition registered : worker :=
  worker_of
    (worker_load_script host v8 "main.js" "$recv(m => $send(m))" fresh) fresh.

Definition sent : worker :=
  worker_of (worker_send host "hi" registered) registered.

Definition failed : worker :=
  worker_of (worker_send host "hi" fresh) fresh.

Definition reloaded : worker :=
  worker_of (worker_load_module host v8 1 "leaf" failed) failed.

Definition loaded_once : worker :=
  worker_of (worker_load_module host v8 1 "leaf" fresh) fresh.

Definition loaded_twice : worker :=
  worker_of (worker_load_module host v8 1 "leaf" loaded_once) loaded_once.

Definition loaded_top : worker :=
  worker_of (worker_load_module host v8 3 "top" fresh) fresh.

End Demo.

(** ** The rest of the file *)

(** *** C strings *)

Definition strlen (s : string) : nat := String.length (until_nul s).

(** [CopyString], in bytes: [malloc(value.length())] and what
    [strcpy(c, value.c_str())] writes, the characters up to the first NUL
    and the terminator. *)
Definition CopyString_allocated (value : string) : nat := String.length value.

Definition CopyString_written (value : string) : nat := S (strlen value).

(** [worker_last_exception]. *)
Definition worker_last_exception (w : worker) : string :=
  CopyString (last_exception w).

(** [Print]: the [$print] function, as what it appends to stdout; [args]
    are the [Utf8Value] conversions of the arguments, and [printf("%s")]
    stops at a NUL. *)
Fixpoint Print_args (first : bool) (args : list (option string))
    (stdout : string) : string :=
  match args with
  | [] => stdout
  | str :: args =>
      let stdout := if first then stdout else stdout +:+ " " in
      let cstr := ToCString str in
      Print_args false args (stdout +:+ until_nul cstr)
  end.

Definition Print (args : list (option string)) (stdout : string) : string :=
  Print_args true args stdout +:+ nl.

(** *** The module data over the life of a worker *)

(** Every url of [url_to_module_map] is mapped back by
    [module_to_url_map], whose keys are module objects made so far. *)
Definition cache_wf (w : worker) : Prop :=
  (∀ url module,
     url_to_module_map (module_data w) !! url = Some module →
     module_to_url_map (module_data w) !! module = Some url) ∧
  (∀ module url,
     module_to_url_map (module_data w) !! module = Some url →
     (module < next_module w)%nat).

(** From [w] to [w'] the worker keeps its id and every entry of the two
    maps, and no module identity is taken back. *)
Definition grows (w w' : worker) : Prop :=
  id w' = id w ∧
  (next_module w ≤ next_module w')%nat ∧
  (∀ url module,
     url_to_module_map (module_data w) !! url = Some module →
     url_to_module_map (module_data w') !! url = Some module) ∧
  (∀ module url,
     module_to_url_map (module_data w) !! module = Some url →
     module_to_url_map (module_data w') !! module = Some url).

(** What a returning entry point does to the module data. *)
Definition keeps_cache (host : Host) (v8 : V8) (w w' : worker) : Prop :=
  grows w w' ∧ (cache_wf w → cache_wf w') ∧
  (∀ u, url_to_module_map (module_data w') !! u
          ≠ url_to_module_map (module_data w) !! u →
        ∃ c, compiled host v8 (id w) u = inr c).

(** The workers the entry points can produce from [worker_init]. *)
Inductive reachable (host : Host) (v8 : V8) : worker → Prop :=
  | reachable_init id enable_print :
      reachable host v8 (worker_init id enable_print)
  | reachable_call w w' :
      reachable host v8 w → entry_call host v8 w w' →
      reachable host v8 w'.

(** A call of an entry point that runs a script and loads no module. *)
Inductive script_call (host : Host) (v8 : V8) : worker → worker → Prop :=
  | script_load_script name_s source_s w rc w' :
      worker_load_script host v8 name_s source_s w = Done (rc, w') →
      script_call host v8 w w'
  | script_send msg w rc w' :
      worker_send host msg w = Done (rc, w') →
      script_call host v8 w w'
  | script_send_sync msg w out w' :
      worker_send_sync host msg w = Done (out, w') →
      script_call host v8 w w'.

(** A call that reports a failure: a code other than 0. *)
Inductive fails (host : Host) (v8 : V8) : worker → worker → Prop :=
  | load_script_fails name_s source_s w rc w' :
      worker_load_script host v8 name_s source_s w = Done (rc, w') →
      rc ≠ 0 → fails host v8 w w'
  | load_module_fails fuel url_s w rc w' :
      worker_load_module host v8 fuel url_s w = Done (rc, w') →
      rc ≠ 0 → fails host v8 w w'
  | send_fails msg w rc w' :
      worker_send host msg w = Done (rc, w') →
      rc ≠ 0 → fails host v8 w w'.

(** The number of import paths from [url] to [v] with fewer than [depth]
    modules on them, through modules that compile. *)
Fixpoint paths (host : Host) (v8 : V8) (wid : Z) (depth : nat)
    (url v : string) : nat :=
  match depth with
  | O => 0
  | S depth =>
      (if decide (url = v) then 1 else 0) +
      match compiled host v8 wid url with
      | inl _ => 0
      | inr c =>
          foldr (λ name n, paths host v8 wid depth name v + n) 0
            (GetModuleRequests c)
      end
  end%nat.

(** The events of a script: [Locker]s and host callbacks. *)
Definition script_event (e : Event) : bool :=
  match e with
  | getModuleSource_call _ _ | CompileModule_call _ => false
  | _ => true
  end.

(** * Properties *)

(** ** Strings *)

Lemma append_cons (c : ascii) (s t : string) :
  String c s +:+ t = String c (s +:+ t).
Proof. reflexivity. Qed.

Lemma append_empty_r (s : string) : s +:+ "" = s.
Proof.
  induction s as [|c s IH]; [reflexivity|].
  rewrite append_cons, IH. reflexivity.
Qed.

Lemma append_assoc (s t u : string) : (s +:+ t) +:+ u = s +:+ (t +:+ u).
Proof.
  induction s as [|c s IH]; [reflexivity|].
  rewrite !append_cons, IH. reflexivity.
Qed.

Lemma repeat_string_snoc (n : nat) (s : string) :
  repeat_string n s +:+ s = s +:+ repeat_string n s.
Proof.
  induction n as [|n IH]; simpl.
  - rewrite append_empty_r. reflexivity.
  - rewrite append_assoc, IH. reflexivity.
Qed.

Lemma iter_append (n : nat) (s out : string) :
  Nat.iter n (λ out, out +:+ s) out = out +:+ repeat_string n s.
Proof.
  induction n as [|n IH]; simpl.
  - rewrite append_empty_r. reflexivity.
  - rewrite IH, append_assoc, repeat_string_snoc. reflexivity.
Qed.

Lemma for_loop_append (from to : Z) (s out : string) :
  for_loop from to (λ out, out +:+ s) out
  = out +:+ repeat_string (Z.to_nat (to - from)) s.
Proof. apply iter_append. Qed.

Lemma until_nul_without (s : string) : nul_free s → until_nul s = s.
Proof.
  unfold nul_free. induction s as [|c s IH]; simpl; [reflexivity|].
  intros Hnot. case_decide as Hc.
  - destruct Hnot. subst c. apply list_elem_of_here.
  - rewrite IH; [reflexivity|].
    intros Hin. apply Hnot. by apply list_elem_of_further.
Qed.

Lemma nul_free_until_nul (s : string) : nul_free (until_nul s).
Proof.
  unfold nul_free. induction s as [|c s IH]; simpl.
  - intros Hin. inversion Hin.
  - case_decide as Hc; simpl.
    + intros Hin. inversion Hin.
    + intros Hin. apply elem_of_cons in Hin as [Heq|Hin]; [congruence|auto].
Qed.

Lemma until_nul_idem (s : string) : until_nul (until_nul s) = until_nul s.
Proof. apply until_nul_without, nul_free_until_nul. Qed.

Lemma nul_free_cons (c : ascii) (s : string) :
  c ≠ "000"%char → nul_free s → nul_free (String c s).
Proof.
  unfold nul_free. simpl. intros Hc Hs Hin.
  apply elem_of_cons in Hin as [Heq|Hin]; [congruence|auto].
Qed.

Lemma nul_free_app (s t : string) :
  nul_free s → nul_free t → nul_free (s +:+ t).
Proof.
  intros Hs Ht. induction s as [|c s IH]; [exact Ht|].
  rewrite append_cons. unfold nul_free in Hs. simpl in Hs.
  apply nul_free_cons.
  - intros ->. apply Hs, list_elem_of_here.
  - apply IH. intros Hin. by apply Hs, list_elem_of_further.
Qed.

Lemma nul_free_repeat (n : nat) (s : string) :
  nul_free s → nul_free (repeat_string n s).
Proof.
  intros Hs. induction n as [|n IH]; simpl.
  - intros Hin. inversion Hin.
  - by apply nul_free_app.
Qed.

Lemma nul_free_pretty_N_go (x : N) (s : string) :
  nul_free s → nul_free (pretty_N_go x s).
Proof.
  revert s. induction (N.lt_wf_0 x) as [x _ IH]; intros s Hs.
  assert (x = 0 ∨ 0 < x)%N as [->|Hpos] by lia.
  - rewrite pretty_N_go_0. exact Hs.
  - rewrite pretty_N_go_step by done. apply IH.
    + by apply N.div_lt.
    + apply nul_free_cons; [|exact Hs].
      unfold pretty_N_char. by repeat case_match.
Qed.

Lemma nul_free_pretty (n : Z) : nul_free (pretty n).
Proof.
  assert (Hpos : ∀ p : positive, nul_free (pretty p)).
  { intros p. unfold pretty, pretty_positive, pretty, pretty_N.
    case_decide; [discriminate|].
    apply nul_free_pretty_N_go. intros Hin. inversion Hin. }
  destruct n as [|p|p]; unfold pretty, pretty_Z.
  - apply nul_free_cons; [discriminate|]. intros Hin. inversion Hin.
  - apply Hpos.
  - apply nul_free_app; [|apply Hpos].
    apply nul_free_cons; [discriminate|]. intros Hin. inversion Hin.
Qed.

(** ** The diagnostic *)

(** C6, as the code has it.  With message information the diagnostic is
    the resource name and the line number joined by a colon, the source
    line, [start] spaces followed by [end - start] carets, and the stack
    trace when its length is not 0 or else the exception message, each
    closed by a newline, in this order; without message information it is
    the exception message and a newline.  Every one of these strings is
    appended as a C string: cut at its first NUL. *)
Theorem ExceptionString_layout (t : Thrown) :
  ExceptionString (Some t) =
    match GetMessage t with
    | Some message =>
        let start := default 0 (GetStartColumn message) in
        let end_ := default 0 (GetEndColumn message) in
        until_nul (ToCString (ResourceName message)) +:+ ":" +:+
          pretty (GetLineNumber message) +:+ nl +:+
        until_nul (ToCString (GetSourceLine message)) +:+ nl +:+
        repeat_string (Z.to_nat start) " " +:+
          repeat_string (Z.to_nat (end_ - start)) "^" +:+ nl +:+
        match StackTrace t with
        | Some (String c trace) => until_nul (String c trace)
        | _ => until_nul (ToCString (Exception t))
        end +:+ nl
    | None => until_nul (ToCString (Exception t)) +:+ nl
    end.
Proof.
  unfold ExceptionString. simpl.
  destruct (GetMessage t) as [message|]; [|reflexivity].
  cbv zeta. rewrite !for_loop_append, Z.sub_0_r.
  rewrite (until_nul_without _ (nul_free_pretty (GetLineNumber message))).
  assert (Hlast :
    ∀ out : string,
      (if decide (0 < Utf8Value_length (StackTrace t))%nat
       then (out +:+ until_nul (ToCString (StackTrace t))) +:+ nl
       else (out +:+ until_nul (ToCString (Exception t))) +:+ nl)
      = out +:+ match StackTrace t with
                | Some (String c trace) => until_nul (String c trace)
                | _ => until_nul (ToCString (Exception t))
                end +:+ nl).
  { intros out. destruct (StackTrace t) as [[|c trace]|];
      cbn [Utf8Value_length String.length ToCString];
      case_decide; try lia; apply append_assoc. }
  rewrite Hlast. rewrite !append_assoc. reflexivity.
Qed.

Lemma nul_free_literal_1 (c : ascii) :
  c ≠ "000"%char → nul_free (String c "").
Proof.
  intros Hc. apply nul_free_cons; [exact Hc|]. intros Hin. inversion Hin.
Qed.

(** The diagnostic holds no NUL: it is a C string as it stands. *)
Lemma ExceptionString_nul_free (try_catch : option Thrown) :
  nul_free (ExceptionString try_catch).
Proof.
  assert (Hempty : nul_free "") by (intros Hin; inversion Hin).
  assert (Hnl : nul_free nl) by (by apply nul_free_literal_1).
  unfold ExceptionString.
  destruct (try_catch ≫= GetMessage) as [message|]; cbv zeta.
  - rewrite !for_loop_append. case_decide;
      repeat first
        [ apply nul_free_app | apply nul_free_until_nul
        | apply nul_free_repeat | exact Hempty | exact Hnl
        | by apply nul_free_literal_1 ].
  - repeat first
      [ apply nul_free_app | apply nul_free_until_nul
      | exact Hempty | exact Hnl ].
Qed.

(** On strings without a NUL the diagnostic is the layout it is described
    by. *)
Lemma ExceptionString_without_nul (t : Thrown) :
  nul_free (ToCString (Exception t)) →
  nul_free (ToCString (StackTrace t)) →
  (∀ message, GetMessage t = Some message →
     nul_free (ToCString (ResourceName message)) ∧
     nul_free (ToCString (GetSourceLine message))) →
  ExceptionString (Some t) = Diagnostic_layout t.
Proof.
  intros He Hs Hm. rewrite ExceptionString_layout. unfold Diagnostic_layout.
  rewrite (until_nul_without _ He).
  destruct (GetMessage t) as [message|]; [|reflexivity].
  destruct (Hm message eq_refl) as [Hr Hl].
  rewrite (until_nul_without _ Hr), (until_nul_without _ Hl).
  destruct (StackTrace t) as [[|c trace]|]; try reflexivity.
  simpl in Hs. rewrite (until_nul_without _ Hs). reflexivity.
Qed.

(** ** Scripts under a lock *)

Section Scripts.
Context (host : Host).

Lemma lock_depth_app (d : Z) (tr1 tr2 : list Event) :
  lock_depth d (tr1 ++ tr2) = lock_depth (lock_depth d tr1) tr2.
Proof.
  revert d. induction tr1 as [|e tr1 IH]; intros d; [reflexivity|].
  destruct e; simpl; apply IH.
Qed.

Lemma callback_depths_app (d : Z) (tr1 tr2 : list Event) :
  callback_depths d (tr1 ++ tr2)
  = callback_depths d tr1 ++ callback_depths (lock_depth d tr1) tr2.
Proof.
  revert d. induction tr1 as [|e tr1 IH]; intros d; [reflexivity|].
  destruct e; simpl; rewrite IH; reflexivity.
Qed.

Lemma fetches_app (url : string) (tr1 tr2 : list Event) :
  fetches url (tr1 ++ tr2) = (fetches url tr1 + fetches url tr2)%nat.
Proof.
  induction tr1 as [|e tr1 IH]; [reflexivity|].
  destruct e; simpl; try case_decide; rewrite IH; reflexivity.
Qed.

Local Ltac silent_step :=
  unfold script_step; simpl; rewrite app_nil_r;
  repeat split; intros; simpl; auto.

Lemma script_step_refl (w : worker) : script_step w w [].
Proof. silent_step. Qed.

Lemma script_step_trans (w1 w2 w3 : worker) (new1 new2 : list Event) :
  script_step w1 w2 new1 → script_step w2 w3 new2 →
  script_step w1 w3 (new1 ++ new2).
Proof.
  intros (Hi1 & Hl1 & Hm1 & Hn1 & He1 & Hd1 & Hc1)
         (Hi2 & Hl2 & Hm2 & Hn2 & He2 & Hd2 & Hc2).
  unfold script_step. repeat split; try congruence.
  - rewrite He2, He1, app_assoc. reflexivity.
  - intros d. rewrite lock_depth_app, Hd1. apply Hd2.
  - intros d. rewrite callback_depths_app, Hd1.
    apply Forall_app. split; [apply Hc1 | apply Hc2].
Qed.

Lemma Recv_step (arg : Value) (w w' : worker) :
  Recv arg w = Done w' → script_step w w' [] ∧ try_catch w' = try_catch w.
Proof.
  destruct arg; simpl; intros [= <-].
  split; [|reflexivity]. silent_step.
Qed.

Lemma RecvSync_step (arg : Value) (w w' : worker) :
  RecvSync arg w = Done w' → script_step w w' [] ∧ try_catch w' = try_catch w.
Proof.
  destruct arg; simpl; intros [= <-].
  split; [|reflexivity]. silent_step.
Qed.

(** [$send]: the [Locker] of the function is gone before [recvCb] runs. *)
Lemma Send_events (arg : Value) (w w' : worker) :
  Send arg w = Done w' →
  ∃ str, arg = VString str ∧
    events w' = events w ++
      [Locker_acquire; Locker_release; recvCb_call (id w) (until_nul str)].
Proof.
  destruct arg as [msg| |]; simpl; intros [= <-].
  exists msg. split; [reflexivity|]. simpl. rewrite <- !app_assoc. reflexivity.
Qed.

(** [$sendSync]: likewise before [recvSyncCb] runs. *)
Lemma SendSync_events (arg : Value) (w w' : worker) (returnMsg : string) :
  SendSync host arg w = Done (returnMsg, w') →
  ∃ str, arg = VString str ∧
    returnMsg = until_nul (recvSyncCb host (id w) (until_nul str)) ∧
    events w' = events w ++
      [Locker_acquire; Locker_release; recvSyncCb_call (id w) (until_nul str)].
Proof.
  destruct arg as [msg| |]; simpl; intros [= <- <-].
  exists msg. repeat split. simpl. rewrite <- !app_assoc. reflexivity.
Qed.

Lemma Send_step (arg : Value) (w w' : worker) :
  Send arg w = Done w' →
  ∃ new, script_step w w' new ∧ try_catch w' = try_catch w.
Proof.
  intros H. destruct (Send_events _ _ _ H) as (msg & -> & Hev).
  simpl in H. injection H as <-.
  eexists. split; [|reflexivity].
  unfold script_step. repeat split; [exact Hev|..];
    intros d; simpl; [lia|].
  constructor; [lia|constructor].
Qed.

Lemma SendSync_step (arg : Value) (w w' : worker) (returnMsg : string) :
  SendSync host arg w = Done (returnMsg, w') →
  ∃ new, script_step w w' new ∧ try_catch w' = try_catch w.
Proof.
  intros H. destruct (SendSync_events _ _ _ _ H) as (msg & -> & _ & Hev).
  simpl in H. injection H as _ <-.
  eexists. split; [|reflexivity].
  unfold script_step. repeat split; [exact Hev|..];
    intros d; simpl; [lia|].
  constructor; [lia|constructor].
Qed.

Lemma script_step_set_try_catch (t : option Thrown) (w : worker) :
  script_step w (set_try_catch t w) [].
Proof. silent_step. Qed.

(** A script that returns a value leaves the [TryCatch] as it was; one
    that comes back empty has left its exception there. *)
Lemma run_step (s : Script) (w w' : worker) (r : option Value) :
  run host s w = Done (r, w') →
  ∃ new, script_step w w' new ∧
    match r with
    | Some _ => try_catch w' = try_catch w
    | None => is_Some (try_catch w')
    end.
Proof.
  revert w. induction s as [v|e|arg k IH|arg k IH|arg k IH|arg k IH];
    intros w; simpl.
  - intros [= <- <-]. exists []. split; [apply script_step_refl|reflexivity].
  - intros [= <- <-]. exists []. split; [apply script_step_set_try_catch|].
    simpl. eauto.
  - destruct (Recv arg w) as [w1| |] eqn:E; simpl; try discriminate.
    intros Hk. apply Recv_step in E as [E Et].
    destruct (IH _ Hk) as (new & Hs & Hr).
    exists ([] ++ new). split; [eapply script_step_trans; eauto|].
    destruct r; [congruence|assumption].
  - destruct (RecvSync arg w) as [w1| |] eqn:E; simpl; try discriminate.
    intros Hk. apply RecvSync_step in E as [E Et].
    destruct (IH _ Hk) as (new & Hs & Hr).
    exists ([] ++ new). split; [eapply script_step_trans; eauto|].
    destruct r; [congruence|assumption].
  - destruct (Send arg w) as [w1| |] eqn:E; simpl; try discriminate.
    intros Hk. apply Send_step in E as (new1 & E & Et).
    destruct (IH _ Hk) as (new & Hs & Hr).
    exists (new1 ++ new). split; [eapply script_step_trans; eauto|].
    destruct r; [congruence|assumption].
  - destruct (SendSync host arg w) as [[returnV w1]| |] eqn:E; simpl;
      try discriminate.
    intros Hk. apply SendSync_step in E as (new1 & E & Et).
    destruct (IH _ _ Hk) as (new & Hs & Hr).
    exists (new1 ++ new). split; [eapply script_step_trans; eauto|].
    destruct r; [congruence|assumption].
Qed.

Lemma run_fuel_free (s : Script) (w : worker) : run host s w ≠ OutOfFuel.
Proof.
  revert w. induction s as [v|e|arg k IH|arg k IH|arg k IH|arg k IH];
    intros w; simpl; try discriminate.
  - destruct arg; simpl; try discriminate. apply IH.
  - destruct arg; simpl; try discriminate. apply IH.
  - destruct arg; simpl; try discriminate. apply IH.
  - destruct arg; simpl; try discriminate. apply IH.
Qed.

End Scripts.

(** ** The module loader *)

Section Loader.
Context (host : Host) (v8 : V8).

Lemma LoadModule_empty (fuel : nat) (url : string) (w : worker) (e : Thrown) :
  compiled host v8 (id w) url = inl e →
  LoadModule host v8 (S fuel) url w
  = Done (None, set_try_catch (Some e) (fetched url w)).
Proof. unfold compiled. intros H. simpl. rewrite H. reflexivity. Qed.

Lemma LoadModule_compiled (fuel : nat) (url : string) (w : worker)
    (c : ModuleCode) :
  compiled host v8 (id w) url = inr c →
  LoadModule host v8 (S fuel) url w
  = '(loaded, w') ←!
      load_requests (LoadModule host v8 fuel) (GetModuleRequests c)
        (inserted url w);
    if loaded : bool
    then Done (Some {| identity := next_module w; code := c |}, w')
    else Done (None, w').
Proof. unfold compiled. intros H. simpl. rewrite H. reflexivity. Qed.

Lemma loader_step_refl (w : worker) : loader_step host v8 w w [].
Proof.
  unfold loader_step. rewrite app_nil_r.
  repeat split; intros; simpl; auto. congruence.
Qed.

Lemma loader_step_trans (w1 w2 w3 : worker) (new1 new2 : list Event) :
  loader_step host v8 w1 w2 new1 → loader_step host v8 w2 w3 new2 →
  loader_step host v8 w1 w3 (new1 ++ new2).
Proof.
  intros (Hi1 & Hl1 & Hr1 & Hs1 & He1 & Hd1 & Hc1 & Hu1 & Hm1)
         (Hi2 & Hl2 & Hr2 & Hs2 & He2 & Hd2 & Hc2 & Hu2 & Hm2).
  unfold loader_step. repeat split; try congruence.
  - rewrite He2, He1, app_assoc. reflexivity.
  - intros d. rewrite lock_depth_app, Hd1. apply Hd2.
  - intros d. rewrite callback_depths_app, Hc1, Hc2. reflexivity.
  - intros u Hne.
    destruct (decide (url_to_module_map (module_data w2) !! u
                      = url_to_module_map (module_data w1) !! u)) as [E|E].
    + rewrite <- Hi1. apply Hu2. congruence.
    + apply Hu1, E.
  - intros h u Hh. destruct (Hm2 _ _ Hh) as [Hh2|Hc].
    + apply Hm1, Hh2.
    + right. rewrite <- Hi1. exact Hc.
Qed.

Lemma loader_step_fetched (url : string) (w : worker) (t : option Thrown) :
  loader_step host v8 w (set_try_catch t (fetched url w))
    [getModuleSource_call (id w) url; CompileModule_call url].
Proof.
  unfold loader_step. simpl. rewrite <- app_assoc.
  repeat split; intros; simpl; auto. congruence.
Qed.

Lemma lookup_umap_insert `{Countable K} {V : Type} (k k' : K) (v : V)
    (m : gmap K V) (x : V) :
  umap_insert k v m !! k' = Some x → m !! k' = Some x ∨ (k' = k ∧ x = v).
Proof.
  unfold umap_insert. destruct (m !! k) eqn:E; [auto|].
  destruct (decide (k = k')) as [->|Hne].
  - rewrite lookup_insert_eq. intros [= <-]. auto.
  - rewrite lookup_insert_ne by done. auto.
Qed.

Lemma lookup_umap_insert_ne `{Countable K} {V : Type} (k k' : K) (v : V)
    (m : gmap K V) :
  k ≠ k' → umap_insert k v m !! k' = m !! k'.
Proof.
  intros Hne. unfold umap_insert. destruct (m !! k); [reflexivity|].
  apply lookup_insert_ne, Hne.
Qed.

Lemma loader_step_inserted (url : string) (w : worker) (c : ModuleCode) :
  compiled host v8 (id w) url = inr c →
  loader_step host v8 w (inserted url w)
    [getModuleSource_call (id w) url; CompileModule_call url].
Proof.
  intros Hc. unfold loader_step. simpl. rewrite <- app_assoc.
  repeat split; intros; simpl; auto.
  - destruct (decide (url = u)) as [<-|Hne]; [eauto|].
    rewrite lookup_umap_insert_ne in * by done. congruence.
  - match goal with Hl : _ !! _ = Some _ |- _ =>
      apply lookup_umap_insert in Hl as [Hl|[_ ->]] end; eauto.
Qed.

(** The loop over the requests, for any [load] that behaves as
    [LoadModule] is shown to. *)
Lemma load_requests_sound
    (load : string → worker → Result (option Module * worker)) :
  (∀ name w mod_ w', load name w = Done (mod_, w') →
     ∃ new, loader_step host v8 w w' new ∧
            loader_answer host v8 name w w' mod_) →
  ∀ requests w loaded w',
    load_requests load requests w = Done (loaded, w') →
    ∃ new, loader_step host v8 w w' new ∧
      if loaded : bool then
        try_catch w' = try_catch w ∧
        ∀ name v, name ∈ requests → reach host v8 (id w) name v →
          ∃ c, compiled host v8 (id w) v = inr c
      else
        ∃ name v e, name ∈ requests ∧ reach host v8 (id w) name v ∧
          compiled host v8 (id w) v = inl e ∧ try_catch w' = Some e.
Proof.
  intros Hload requests.
  induction requests as [|name requests IH]; intros w loaded w'; simpl.
  - intros [= <- <-]. exists []. split; [apply loader_step_refl|].
    split; [reflexivity|]. intros name v Hin. inversion Hin.
  - destruct (load name w) as [[submodule w1]| |] eqn:E; simpl;
      try discriminate.
    destruct (Hload _ _ _ _ E) as (new1 & Hs1 & Ha1).
    assert (Hid : id w1 = id w) by apply Hs1.
    destruct submodule as [module|].
    + intros Hrest. destruct (IH _ _ _ Hrest) as (new2 & Hs2 & Ha2).
      exists (new1 ++ new2). split; [eapply loader_step_trans; eauto|].
      destruct Ha1 as (Ht1 & _ & Hall1). rewrite Hid in Ha2.
      destruct loaded.
      * destruct Ha2 as [Ht2 Hall2]. split; [congruence|].
        intros name' v Hin Hreach.
        apply elem_of_cons in Hin as [->|Hin]; eauto.
      * destruct Ha2 as (name' & v & e & Hin & Hreach & Hc & Ht).
        exists name', v, e. repeat split; auto. by apply list_elem_of_further.
    + intros [= <- <-]. exists new1. split; [exact Hs1|].
      destruct Ha1 as (v & e & Hreach & Hc & Ht).
      exists name, v, e. repeat split; auto. apply list_elem_of_here.
Qed.

(** [LoadModule] asks the host and the compiler for [url] whatever the
    maps hold, and answers as [loader_answer] says. *)
Lemma LoadModule_sound (fuel : nat) :
  ∀ url w mod_ w', LoadModule host v8 fuel url w = Done (mod_, w') →
    ∃ new, loader_step host v8 w w' new ∧
           loader_answer host v8 url w w' mod_.
Proof.
  induction fuel as [|fuel IH]; intros url w mod_ w'; [discriminate|].
  destruct (compiled host v8 (id w) url) as [e|c] eqn:Hc.
  - rewrite (LoadModule_empty _ _ _ _ Hc). intros [= <- <-].
    eexists. split; [apply loader_step_fetched|].
    exists url, e. repeat split; auto. constructor.
  - rewrite (LoadModule_compiled _ _ _ _ Hc).
    destruct (load_requests _ _ _) as [[loaded w1]| |] eqn:E; simpl;
      try discriminate.
    destruct (load_requests_sound _ IH _ _ _ _ E) as (new & Hs & Ha).
    pose proof (loader_step_inserted url w c Hc) as Hs0.
    assert (Hid : id (inserted url w) = id w) by reflexivity.
    rewrite Hid in Ha.
    destruct loaded; intros [= <- <-];
      (eexists; split; [eapply loader_step_trans; eauto|]).
    + destruct Ha as [Ht Hall]. simpl. repeat split; auto.
      intros v Hreach. inversion Hreach as [|? c' name ? Hc' Hin Hr]; subst.
      * eauto.
      * rewrite Hc in Hc'. injection Hc' as <-. eauto.
    + destruct Ha as (name & v & e & Hin & Hreach & Hv & Ht).
      exists v, e. repeat split; auto. eapply reach_import; eauto.
Qed.

(** Every call of [LoadModule] that returns has asked the host for the
    text of [url] and compiled it, whatever the maps held. *)
Lemma LoadModule_asks (fuel : nat) (url : string) (w w' : worker)
    (mod_ : option Module) :
  LoadModule host v8 fuel url w = Done (mod_, w') →
  ∃ rest, events w' = events w ++
    getModuleSource_call (id w) url :: CompileModule_call url :: rest.
Proof.
  destruct fuel as [|fuel]; [discriminate|].
  destruct (compiled host v8 (id w) url) as [e|c] eqn:Hc.
  - rewrite (LoadModule_empty _ _ _ _ Hc). intros [= <- <-].
    exists []. simpl. rewrite <- app_assoc. reflexivity.
  - rewrite (LoadModule_compiled _ _ _ _ Hc).
    destruct (load_requests _ _ _) as [[loaded w1]| |] eqn:E; simpl;
      try discriminate.
    destruct (load_requests_sound _ (LoadModule_sound fuel) _ _ _ _ E)
      as (new & (_ & _ & _ & _ & He & _) & _).
    simpl in He. rewrite <- !app_assoc in He.
    destruct loaded; intros [= <- <-]; exists new; exact He.
Qed.

Lemma reach_trans (wid : Z) (a b c : string) :
  reach host v8 wid a b → reach host v8 wid b c → reach host v8 wid a c.
Proof.
  induction 1 as [|url compiled_url name v Hc Hin _ IH]; [auto|].
  intros Hbc. eapply reach_import; eauto.
Qed.

Lemma reach_request (wid : Z) (root url name : string) (c : ModuleCode) :
  reach host v8 wid root url →
  compiled host v8 wid url = inr c →
  name ∈ GetModuleRequests c →
  reach host v8 wid root name.
Proof.
  intros Hr Hc Hin. eapply reach_trans; [exact Hr|].
  eapply reach_import; [exact Hc|exact Hin|apply reach_here].
Qed.

(** Without a cycle in reach of the root, [LoadModule] returns. *)
Lemma LoadModule_returns (rank : string → nat) (wid : Z) (root : string) :
  acyclic_from host v8 wid rank root →
  ∀ fuel url w, id w = wid → reach host v8 wid root url →
    (rank url < fuel)%nat →
    ∃ mod_ w', LoadModule host v8 fuel url w = Done (mod_, w').
Proof.
  intros Hrank.
  induction fuel as [|fuel IH]; intros url w Hid Hreach Hlt; [lia|].
  destruct (compiled host v8 (id w) url) as [e|c] eqn:Hc.
  - rewrite (LoadModule_empty _ _ _ _ Hc). eauto.
  - rewrite (LoadModule_compiled _ _ _ _ Hc). rewrite Hid in Hc.
    assert (Hreq : ∀ name, name ∈ GetModuleRequests c →
              reach host v8 wid root name ∧ (rank name < fuel)%nat).
    { intros name Hin. split; [by eapply reach_request|].
      pose proof (Hrank _ _ _ Hreach Hc Hin). lia. }
    assert (Hloop : ∀ requests w1, id w1 = wid →
              (∀ name, name ∈ requests →
                 reach host v8 wid root name ∧ (rank name < fuel)%nat) →
              ∃ loaded w', load_requests (LoadModule host v8 fuel) requests w1
                           = Done (loaded, w')).
    { clear Hreq. induction requests as [|name requests IHr];
        intros w1 Hid1 Hreq; simpl; [eauto|].
      destruct (Hreq name (list_elem_of_here _ _)) as [Hrn Hln].
      destruct (IH name w1 Hid1 Hrn Hln) as (submodule & w2 & E).
      rewrite E. simpl. destruct submodule; [|eauto].
      apply IHr.
      - destruct (LoadModule_sound _ _ _ _ _ E) as (new & Hs & _).
        transitivity (id w1); [apply Hs|exact Hid1].
      - intros name' Hin. by apply Hreq, list_elem_of_further. }
    destruct (Hloop (GetModuleRequests c) (inserted url w)) as (loaded & w' & E);
      [exact Hid|exact Hreq|].
    rewrite E. simpl. destruct loaded; eauto.
Qed.

End Loader.

(** ** The entry points *)

Section Entry.
Context (host : Host) (v8 : V8).

Local Arguments ExceptionString : simpl never.

(** C4. [worker_send] returns 1 with the fixed message in
    [last_exception] when no receiver is registered with [$recv], 2 with
    the diagnostic of the exception when the receiver throws, and 0 when
    it returns; the result is the code alone. *)
Theorem worker_send_codes (msg : string) (w : worker) :
  match recv w with
  | None =>
      ∃ w', worker_send host msg w = Done (1, w') ∧
        last_exception w' = "v8worker: callback not registered with $recv"
  | Some receiver =>
      match run host (receiver msg)
              (set_try_catch None (emit Locker_acquire w)) with
      | Done (None, w1) =>
          ∃ e w', try_catch w1 = Some e ∧
            worker_send host msg w = Done (2, w') ∧
            last_exception w' = ExceptionString (Some e)
      | Done (Some _, _) =>
          ∃ w', worker_send host msg w = Done (0, w') ∧
            last_exception w' = last_exception w
      | Crash => worker_send host msg w = Crash
      | OutOfFuel => False
      end
  end.
Proof.
  unfold worker_send. simpl.
  destruct (recv w) as [receiver|]; [|eexists; split; reflexivity].
  destruct (run host (receiver msg) _) as [[r w1]| |] eqn:E; simpl.
  - destruct (run_step _ _ _ _ _ E) as (new & Hs & Hr).
    destruct r as [v|].
    + simpl in Hr. rewrite Hr.
      destruct (decide (is_Some None)) as [[? [=]]|_].
      eexists. split; [reflexivity|]. simpl. apply Hs.
    + destruct Hr as [e He]. exists e. rewrite He.
      destruct (decide (is_Some (Some e))) as [_|Hn]; [|destruct Hn; eauto].
      eexists. repeat split.
  - reflexivity.
  - exact (run_fuel_free _ _ _ E).
Qed.

(** C5. [worker_send_sync] returns the fixed string about [$recvSync]
    when no receiver is registered with it, and the fixed string about a
    non-string value when the receiver returns something that is not a
    string; [last_exception] stays as it was. *)
Theorem worker_send_sync_sentinels (msg : string) (w : worker) :
  match recv_sync_handler w with
  | None =>
      ∃ w', worker_send_sync host msg w
            = Done ("v8worker: callback not registered with $recvSync", w') ∧
        last_exception w' = last_exception w
  | Some receiver =>
      match run host (receiver msg) (emit Locker_acquire w) with
      | Done (Some (VString response), _) =>
          ∃ w', worker_send_sync host msg w = Done (until_nul response, w') ∧
            last_exception w' = last_exception w
      | Done (Some _, _) =>
          ∃ w', worker_send_sync host msg w
                = Done ("v8worker: non-string return value", w') ∧
            last_exception w' = last_exception w
      | Done (None, _) => worker_send_sync host msg w = Crash
      | Crash => worker_send_sync host msg w = Crash
      | OutOfFuel => False
      end
  end.
Proof.
  unfold worker_send_sync. simpl.
  destruct (recv_sync_handler w) as [receiver|];
    [|eexists; split; reflexivity].
  destruct (run host (receiver msg) _) as [[r w1]| |] eqn:E; simpl.
  - destruct (run_step _ _ _ _ _ E) as (new & Hs & _).
    destruct r as [[response|call|]|]; try reflexivity.
    + exists (emit Locker_release w1). split; [|simpl; apply Hs].
      unfold CopyString.
      change ("" +:+ until_nul response) with (until_nul response).
      rewrite until_nul_idem. reflexivity.
    + eexists. split; [reflexivity|]. simpl. apply Hs.
    + eexists. split; [reflexivity|]. simpl. apply Hs.
  - reflexivity.
  - exact (run_fuel_free _ _ _ E).
Qed.

(** C8. A call of [worker_load_script], [worker_load_module] or
    [worker_send] that returns 0, and any call of [worker_send_sync] that
    returns, leaves [last_exception] as it was. *)
Theorem last_exception_kept (w w' : worker) :
  succeeds host v8 w w' → last_exception w' = last_exception w.
Proof.
  intros [name_s source_s w0 w0' H|fuel url_s w0 w0' H|msg w0 w0' H
         |msg w0 out w0' H].
  - unfold worker_load_script in H.
    destruct (Compile v8 name_s source_s) as [e|script]; [discriminate|].
    destruct (run host script _) as [[r w1]| |] eqn:E; simpl in H;
      try discriminate.
    destruct (run_step _ _ _ _ _ E) as (new & Hs & _).
    destruct r; [|discriminate]. injection H as <-. simpl. apply Hs.
  - unfold worker_load_module in H.
    destruct (LoadModule host v8 fuel url_s _) as [[mod_ w2]| |] eqn:E;
      simpl in H; try discriminate.
    destruct (LoadModule_sound _ _ _ _ _ _ _ E) as (new & Hs & _).
    destruct mod_ as [module|]; [|discriminate].
    destruct (negb _); [discriminate|].
    destruct (run host _ _) as [[r w3]| |] eqn:E3; simpl in H;
      try discriminate.
    destruct (run_step _ _ _ _ _ E3) as (new3 & Hs3 & _).
    destruct r; [|discriminate]. injection H as <-. simpl.
    destruct Hs3 as (_ & -> & _).
    destruct (InstantiateModule _ _); simpl; apply Hs.
  - unfold worker_send in H. simpl in H.
    destruct (recv w0) as [receiver|]; [|discriminate].
    destruct (run host _ _) as [[r w1]| |] eqn:E; simpl in H;
      try discriminate.
    destruct (run_step _ _ _ _ _ E) as (new & Hs & _).
    destruct (decide _); [discriminate|]. injection H as <-. simpl. apply Hs.
  - unfold worker_send_sync in H. simpl in H.
    destruct (recv_sync_handler w0) as [receiver|];
      [|injection H as _ <-; reflexivity].
    destruct (run host _ _) as [[r w1]| |] eqn:E; simpl in H;
      try discriminate.
    destruct (run_step _ _ _ _ _ E) as (new & Hs & _).
    destruct r as [[response|call|]|]; try discriminate;
      injection H as _ <-; simpl; apply Hs.
Qed.

End Entry.

(** ** The lock around host callbacks *)

Section Locking.
Context (host : Host) (v8 : V8).

Local Arguments ExceptionString : simpl never.

(** What an entry point adds to the trace around a body [mid] that
    leaves the lock depth as it finds it. *)
Lemma under_entry_lock (w w1 w' : worker) (mid : list Event) :
  events w1 = (events w ++ [Locker_acquire]) ++ mid →
  (∀ d, lock_depth d mid = d) →
  (∀ d, Forall (λ x, x = d) (callback_depths d mid)) →
  events w' = events w1 ++ [Locker_release] →
  ∃ new, events w' = events w ++ new ∧ lock_depth 0 new = 0 ∧
    Forall (λ d, d = 1) (callback_depths 0 new).
Proof.
  intros H1 Hd Hc H'. exists ([Locker_acquire] ++ mid ++ [Locker_release]).
  split; [|split].
  - rewrite H', H1, <- !app_assoc. reflexivity.
  - simpl. rewrite lock_depth_app, Hd. reflexivity.
  - simpl. rewrite callback_depths_app, Hd. simpl.
    rewrite app_nil_r. apply Hc.
Qed.

Lemma script_under_lock (w w1 w' : worker) (new : list Event) :
  script_step w1 w' new →
  (∀ d, lock_depth d new = d) ∧
  (∀ d, Forall (λ x, x = d) (callback_depths d new)).
Proof. intros Hs. split; apply Hs. Qed.

(** C9, as the code has it.  The [Locker] that [$send] and [$sendSync]
    take is released before [recvCb] and [recvSyncCb] run, but the
    [Locker] of the entry point under which the script runs is still
    held: in what a returning entry point adds to the trace, every call
    of [recvCb] and [recvSyncCb] happens at lock depth 1, and the depth
    is back to 0 at the end. *)
Theorem callbacks_run_under_the_entry_lock (w w' : worker) :
  entry_call host v8 w w' →
  ∃ new, events w' = events w ++ new ∧ lock_depth 0 new = 0 ∧
    Forall (λ d, d = 1) (callback_depths 0 new).
Proof.
  intros [name_s source_s w0 rc w0' H|fuel url_s w0 rc w0' H|msg w0 rc w0' H
         |msg w0 out w0' H].
  - unfold worker_load_script in H.
    destruct (Compile v8 name_s source_s) as [e|script].
    + injection H as _ <-.
      eapply (under_entry_lock w0 (emit Locker_acquire w0) _ []);
        simpl; auto. rewrite app_nil_r. reflexivity.
    + destruct (run host script _) as [[r w1]| |] eqn:E; simpl in H;
        try discriminate.
      destruct (run_step _ _ _ _ _ E) as (new & Hs & _).
      destruct (script_under_lock w0 _ _ _ Hs) as [Hd Hc].
      destruct Hs as (_ & _ & _ & _ & He & _).
      destruct r; injection H as _ <-;
        eapply (under_entry_lock w0 w1 _ new); simpl; auto.
  - unfold worker_load_module in H.
    destruct (LoadModule host v8 fuel url_s _) as [[mod_ w2]| |] eqn:E;
      simpl in H; try discriminate.
    destruct (LoadModule_sound _ _ _ _ _ _ _ E)
      as (new & (_ & _ & _ & _ & He & Hd & Hc & _) & _).
    assert (Hc' : ∀ d, Forall (λ x, x = d) (callback_depths d new)).
    { intros d. rewrite Hc. constructor. }
    destruct mod_ as [module|].
    2:{ injection H as _ <-.
        eapply (under_entry_lock w0 w2 _ new); simpl; auto. }
    set (instantiated := InstantiateModule _ _) in H.
    assert (He2 : events (catch instantiated w2) = events w2)
      by (destruct instantiated; reflexivity).
    destruct (negb _).
    { injection H as _ <-.
      eapply (under_entry_lock w0 w2 _ new); simpl; auto.
      rewrite He2. reflexivity. }
    destruct (run host _ _) as [[r w3]| |] eqn:E3; simpl in H;
      try discriminate.
    destruct (run_step _ _ _ _ _ E3) as (new3 & Hs3 & _).
    destruct (script_under_lock w0 _ _ _ Hs3) as [Hd3 Hc3].
    destruct Hs3 as (_ & _ & _ & _ & He3 & _).
    assert (Hw3 : events w3 = (events w0 ++ [Locker_acquire]) ++ new ++ new3).
    { rewrite He3, He2, He. simpl. rewrite <- !app_assoc. reflexivity. }
    assert (Hd' : ∀ d, lock_depth d (new ++ new3) = d).
    { intros d. rewrite lock_depth_app, Hd. apply Hd3. }
    assert (Hc'' : ∀ d, Forall (λ x, x = d) (callback_depths d (new ++ new3))).
    { intros d. rewrite callback_depths_app, Hd, Hc. apply Hc3. }
    destruct r; injection H as _ <-;
      eapply (under_entry_lock w0 w3 _ (new ++ new3)); simpl; auto.
  - unfold worker_send in H. simpl in H.
    destruct (recv w0) as [receiver|].
    2:{ injection H as _ <-.
        eapply (under_entry_lock w0 (emit Locker_acquire w0) _ []);
          simpl; auto. rewrite app_nil_r. reflexivity. }
    destruct (run host _ _) as [[r w1]| |] eqn:E; simpl in H;
      try discriminate.
    destruct (run_step _ _ _ _ _ E) as (new & Hs & _).
    destruct (script_under_lock w0 _ _ _ Hs) as [Hd Hc].
    destruct Hs as (_ & _ & _ & _ & He & _).
    destruct (decide _); injection H as _ <-;
      eapply (under_entry_lock w0 w1 _ new); simpl; auto.
  - unfold worker_send_sync in H. simpl in H.
    destruct (recv_sync_handler w0) as [receiver|].
    2:{ injection H as _ <-.
        eapply (under_entry_lock w0 (emit Locker_acquire w0) _ []);
          simpl; auto. rewrite app_nil_r. reflexivity. }
    destruct (run host _ _) as [[r w1]| |] eqn:E; simpl in H;
      try discriminate.
    destruct (run_step _ _ _ _ _ E) as (new & Hs & _).
    destruct (script_under_lock w0 _ _ _ Hs) as [Hd Hc].
    destruct Hs as (_ & _ & _ & _ & He & _).
    destruct r as [[response|call|]|]; try discriminate;
      injection H as _ <-;
      eapply (under_entry_lock w0 w1 _ new); simpl; auto.
Qed.

End Locking.

(** ** Loading a module graph *)

Section LoadGraph.
Context (host : Host) (v8 : V8).

Local Arguments ExceptionString : simpl never.

(** The worker as [LoadModule] gets it from [worker_load_module]. *)
Lemma entered_id (w : worker) :
  id (set_try_catch None (emit Locker_acquire w)) = id w.
Proof. reflexivity. Qed.

(** X15. When no import cycle is in reach of the root,
    [worker_load_module] returns: 1 when a module in reach of the root
    does not compile, and otherwise, with the compiled module of the root,
    2 when its instantiation fails, 3 when its evaluation throws, and 0
    when it completes; in the three failures [last_exception] is the
    diagnostic of that failure, on success it is left as it was. *)
Theorem worker_load_module_codes (rank : string → nat) (url : string)
    (w : worker) :
  acyclic_from host v8 (id w) rank url →
  ∃ fuel mod_ w2,
    LoadModule host v8 fuel url (set_try_catch None (emit Locker_acquire w))
    = Done (mod_, w2) ∧
    (mod_ = None ↔
     ∃ v e, reach host v8 (id w) url v ∧ compiled host v8 (id w) v = inl e) ∧
    match mod_ with
    | None =>
        ∃ v e w', reach host v8 (id w) url v ∧
          compiled host v8 (id w) v = inl e ∧
          worker_load_module host v8 fuel url w = Done (1, w') ∧
          last_exception w' = ExceptionString (Some e)
    | Some module =>
        compiled host v8 (id w) url = inr (code module) ∧
        match InstantiateModule (code module)
                (ResolveModuleCallback (module_data w2)) with
        | inl e =>
            ∃ w', worker_load_module host v8 fuel url w = Done (2, w') ∧
              last_exception w' = ExceptionString (Some e)
        | inr false =>
            ∃ w', worker_load_module host v8 fuel url w = Done (2, w') ∧
              last_exception w' = ExceptionString None
        | inr true =>
            match run host (Evaluate (code module)) w2 with
            | Done (None, w3) =>
                ∃ e w', try_catch w3 = Some e ∧
                  worker_load_module host v8 fuel url w = Done (3, w') ∧
                  last_exception w' = ExceptionString (Some e)
            | Done (Some _, _) =>
                ∃ w', worker_load_module host v8 fuel url w = Done (0, w') ∧
                  last_exception w' = last_exception w
            | Crash => worker_load_module host v8 fuel url w = Crash
            | OutOfFuel => False
            end
        end
    end.
Proof.
  intros Hrank. exists (S (rank url)).
  destruct (LoadModule_returns host v8 rank (id w) url Hrank (S (rank url)) url
              (set_try_catch None (emit Locker_acquire w)))
    as (mod_ & w2 & E); [reflexivity|apply reach_here|lia|].
  exists mod_, w2. split; [exact E|].
  destruct (LoadModule_sound _ _ _ _ _ _ _ E) as (new & Hs & Ha).
  unfold loader_answer in Ha. rewrite !entered_id in Ha.
  assert (Hl2 : last_exception w2 = last_exception w) by apply Hs.
  unfold worker_load_module. rewrite E. simpl.
  destruct mod_ as [module|]; simpl in Ha.
  - destruct Ha as (Ht & Hc & Hall). split.
    { split; [discriminate|]. intros (v & e & Hr & He).
      destruct (Hall _ Hr) as [c Hv]. congruence. }
    split; [exact Hc|].
    simpl in Ht.
    destruct (InstantiateModule _ _) as [e|[|]]; simpl.
    + eexists. split; reflexivity.
    + destruct (run host _ w2) as [[r w3]| |] eqn:E3; simpl.
      * destruct (run_step _ _ _ _ _ E3) as (new3 & Hs3 & Hr).
        destruct r as [v|].
        -- eexists. split; [reflexivity|]. simpl.
           destruct Hs3 as (_ & -> & _). exact Hl2.
        -- destruct Hr as [e He]. exists e. eexists.
           split; [exact He|]. split; [reflexivity|]. simpl.
           rewrite He. reflexivity.
      * reflexivity.
      * exact (run_fuel_free _ _ _ E3).
    + eexists. split; [reflexivity|]. simpl. rewrite Ht. reflexivity.
  - destruct Ha as (v & e & Hr & Hv & Ht). split.
    { split; [eauto|reflexivity]. }
    exists v, e. eexists. repeat split; [exact Hr|exact Hv|].
    simpl. rewrite Ht. reflexivity.
Qed.

(** X16. When no import cycle is in reach of the root, the root compiles
    and a module in its reach does not, [worker_load_module] returns 1
    with the diagnostic of a module in reach that failed to compile, and
    that module has not entered either map; a root that does not compile
    returns the same code. *)
Theorem transitive_compile_failure (rank : string → nat) (url v : string)
    (c : ModuleCode) (e : Thrown) (w : worker) :
  acyclic_from host v8 (id w) rank url →
  compiled host v8 (id w) url = inr c →
  reach host v8 (id w) url v →
  compiled host v8 (id w) v = inl e →
  ∃ fuel w' v' e',
    worker_load_module host v8 fuel url w = Done (1, w') ∧
    reach host v8 (id w) url v' ∧ v' ≠ url ∧
    compiled host v8 (id w) v' = inl e' ∧
    last_exception w' = ExceptionString (Some e') ∧
    url_to_module_map (module_data w') !! v'
      = url_to_module_map (module_data w) !! v' ∧
    (∀ h, module_to_url_map (module_data w') !! h = Some v' →
          module_to_url_map (module_data w) !! h = Some v') ∧
    (∀ root e0, compiled host v8 (id w) root = inl e0 →
       ∃ w'', worker_load_module host v8 fuel root w = Done (1, w'') ∧
         last_exception w'' = ExceptionString (Some e0)).
Proof.
  intros Hrank Hroot Hreach Hv. exists (S (rank url)).
  destruct (LoadModule_returns host v8 rank (id w) url Hrank (S (rank url)) url
              (set_try_catch None (emit Locker_acquire w)))
    as (mod_ & w2 & E); [reflexivity|apply reach_here|lia|].
  destruct (LoadModule_sound _ _ _ _ _ _ _ E) as (new & Hs & Ha).
  unfold loader_answer in Ha. rewrite !entered_id in Ha.
  destruct Hs as (_ & _ & _ & _ & _ & _ & _ & Hu & Hm).
  rewrite entered_id in Hu, Hm. simpl in Hu, Hm.
  destruct mod_ as [module|]; simpl in Ha.
  { destruct Ha as (_ & _ & Hall). destruct (Hall _ Hreach). congruence. }
  destruct Ha as (v' & e' & Hr' & Hv' & Ht).
  exists (emit Locker_release
            (set_last_exception (ExceptionString (try_catch w2)) w2)), v', e'.
  assert (Hdirect : ∀ root e0, compiled host v8 (id w) root = inl e0 →
            ∃ w'', worker_load_module host v8 (S (rank url)) root w
                   = Done (1, w'') ∧
              last_exception w'' = ExceptionString (Some e0)).
  { intros root e0 H0. unfold worker_load_module.
    rewrite (LoadModule_empty host v8 (rank url) root
               (set_try_catch None (emit Locker_acquire w)) e0 H0). simpl.
    eexists. split; reflexivity. }
  unfold worker_load_module. rewrite E. simpl.
  repeat split; auto.
  - intros ->. congruence.
  - rewrite Ht. reflexivity.
  - destruct (decide (url_to_module_map (module_data w2) !! v'
                      = url_to_module_map (module_data w) !! v'))
      as [Heq|Hne]; [exact Heq|].
    destruct (Hu _ Hne). congruence.
  - intros h Hh. destruct (Hm _ _ Hh) as [Hold|[c' Hc']]; [exact Hold|].
    congruence.
Qed.

End LoadGraph.

(** ** The binding at work *)

Lemma Demo_compiled_a (wid : Z) :
  compiled Demo.host Demo.v8 wid "a" = inr (Demo.importing ["b"]).
Proof. reflexivity. Qed.

Lemma Demo_compiled_b (wid : Z) :
  compiled Demo.host Demo.v8 wid "b" = inr (Demo.importing ["a"]).
Proof. reflexivity. Qed.

(** With [a] importing [b] and [b] importing [a], no depth of recursion is
    enough for [LoadModule] on either of them. *)
Lemma LoadModule_cycle (fuel : nat) :
  ∀ w, LoadModule Demo.host Demo.v8 fuel "a" w = OutOfFuel ∧
       LoadModule Demo.host Demo.v8 fuel "b" w = OutOfFuel.
Proof.
  induction fuel as [|fuel IH]; intros w; [split; reflexivity|]. split.
  - rewrite (LoadModule_compiled _ _ _ _ _ _ (Demo_compiled_a (id w))).
    cbn [Demo.importing GetModuleRequests load_requests].
    rewrite (proj2 (IH _)). reflexivity.
  - rewrite (LoadModule_compiled _ _ _ _ _ _ (Demo_compiled_b (id w))).
    cbn [Demo.importing GetModuleRequests load_requests].
    rewrite (proj1 (IH _)). reflexivity.
Qed.

(** C1, on the code.  [leaf] imports nothing.  Loading it a second time
    asks the host for its text and compiles it a second time, and so does
    reaching it twice in one load of [top], which imports [left] and
    [right], both importing [leaf]. *)
Theorem module_fetched_and_compiled_again :
  Demo.code_of (worker_load_module Demo.host Demo.v8 1 "leaf" Demo.fresh) = Some 0 ∧
  Demo.code_of (worker_load_module Demo.host Demo.v8 1 "leaf" Demo.loaded_once)
    = Some 0 ∧
  url_to_module_map (module_data Demo.loaded_once) !! "leaf" = Some 0%nat ∧
  fetches "leaf" (events Demo.loaded_once) = 1%nat ∧
  fetches "leaf" (events Demo.loaded_twice) = 2%nat ∧
  compilations "leaf" (events Demo.loaded_twice) = 2%nat ∧
  Demo.code_of (worker_load_module Demo.host Demo.v8 3 "top" Demo.fresh) = Some 0 ∧
  fetches "leaf" (events Demo.loaded_top) = 2%nat ∧
  compilations "leaf" (events Demo.loaded_top) = 2%nat.
Proof. vm_compute. repeat split. Qed.

(** C2, on the code.  With [a] importing [b] and [b] importing [a],
    [worker_load_module] on [a] does not return, whatever depth of
    recursion it is given. *)
Theorem import_cycle_never_returns (fuel : nat) (w : worker) :
  worker_load_module Demo.host Demo.v8 fuel "a" w = OutOfFuel.
Proof.
  unfold worker_load_module.
  rewrite (proj1 (LoadModule_cycle fuel _)). reflexivity.
Qed.

(** C10, on the code.  After [leaf] is loaded twice the second module
    object maps to [leaf] while [leaf] still maps to the first one: the two
    maps are not inverses of each other, as they were after the first
    load. *)
Theorem maps_not_inverse_after_reload :
  url_to_module_map (module_data Demo.loaded_once) !! "leaf" = Some 0%nat ∧
  module_to_url_map (module_data Demo.loaded_once) !! 0%nat = Some "leaf" ∧
  url_to_module_map (module_data Demo.loaded_twice) !! "leaf" = Some 0%nat ∧
  module_to_url_map (module_data Demo.loaded_twice) !! 1%nat = Some "leaf" ∧
  ¬ inverse_maps (module_data Demo.loaded_twice).
Proof.
  assert (H1 : module_to_url_map (module_data Demo.loaded_twice) !! 1%nat
               = Some "leaf") by (vm_compute; reflexivity).
  repeat split; try (vm_compute; reflexivity).
  intros Hinv. apply Hinv in H1. vm_compute in H1. discriminate H1.
Qed.

Lemma Demo_reach_root (wid : Z) (url : string) :
  reach Demo.host Demo.v8 wid "root" url →
  url = "root" ∨ url = "mid" ∨ url = "bad".
Proof.
  intros H. inversion H as [|? c name ? Hc Hin Hr]; subst; [auto|].
  vm_compute in Hc. injection Hc as <-. simpl in Hin.
  apply list_elem_of_singleton in Hin as ->.
  inversion Hr as [|? c name ? Hc Hin Hr2]; subst; [auto|].
  vm_compute in Hc. injection Hc as <-. simpl in Hin.
  apply list_elem_of_singleton in Hin as ->.
  inversion Hr2 as [|? c name ? Hc Hin Hr3]; subst; [auto|].
  vm_compute in Hc. discriminate Hc.
Qed.

(** From [root] the imports go down [Demo.rank], though the host also
    serves the cycle between [a] and [b]. *)
Lemma Demo_acyclic_root (wid : Z) :
  acyclic_from Demo.host Demo.v8 wid Demo.rank "root".
Proof.
  intros url c name Hreach Hc Hin.
  destruct (Demo_reach_root _ _ Hreach) as [-> | [-> | ->]];
    vm_compute in Hc; try discriminate Hc;
    injection Hc as <-; simpl in Hin;
    apply list_elem_of_singleton in Hin as ->; vm_compute; lia.
Qed.

Lemma Demo_reach_bad (wid : Z) :
  reach Demo.host Demo.v8 wid "root" "bad".
Proof.
  eapply (reach_import _ _ _ "root" (Demo.importing ["mid"]) "mid");
    [reflexivity|apply list_elem_of_here|].
  eapply (reach_import _ _ _ "mid" (Demo.importing ["bad"]) "bad");
    [reflexivity|apply list_elem_of_here|].
  apply reach_here.
Qed.

(** [root] imports [mid], [mid] imports [bad], which does not compile:
    loading [root] returns 1. *)
Lemma worker_load_module_codes_witness :
  acyclic_from Demo.host Demo.v8 (id Demo.fresh) Demo.rank "root" ∧
  ∃ fuel w',
    worker_load_module Demo.host Demo.v8 fuel "root" Demo.fresh
    = Done (1, w').
Proof.
  split; [apply Demo_acyclic_root|].
  destruct (worker_load_module_codes Demo.host Demo.v8 Demo.rank
              "root" Demo.fresh (Demo_acyclic_root _))
    as (fuel & mod_ & w2 & _ & Hiff & Hm).
  destruct mod_ as [module|].
  - exfalso. destruct Hiff as [_ Hnone].
    discriminate Hnone.
    exists "bad", (Demo.syntax_error "bad" "export =").
    split; [apply Demo_reach_bad|reflexivity].
  - destruct Hm as (v & e & w' & _ & _ & Hr & _). exists fuel, w'. exact Hr.
Defined.

(** The same graph, with the failing import two levels below the root. *)
Lemma transitive_compile_failure_witness :
  acyclic_from Demo.host Demo.v8 (id Demo.fresh) Demo.rank "root" ∧
  compiled Demo.host Demo.v8 (id Demo.fresh) "root"
    = inr (Demo.importing ["mid"]) ∧
  reach Demo.host Demo.v8 (id Demo.fresh) "root" "bad" ∧
  compiled Demo.host Demo.v8 (id Demo.fresh) "bad"
    = inl (Demo.syntax_error "bad" "export =") ∧
  ∃ fuel w',
    worker_load_module Demo.host Demo.v8 fuel "root" Demo.fresh
    = Done (1, w').
Proof.
  split; [apply Demo_acyclic_root|].
  split; [reflexivity|]. split; [apply Demo_reach_bad|].
  split; [reflexivity|].
  destruct (transitive_compile_failure Demo.host Demo.v8 Demo.rank
              "root" "bad" (Demo.importing ["mid"])
              (Demo.syntax_error "bad" "export =") Demo.fresh
              (Demo_acyclic_root _) eq_refl (Demo_reach_bad _) eq_refl)
    as (fuel & w' & _ & _ & Hr & _).
  exists fuel, w'. exact Hr.
Defined.

(** A worker whose [worker_send] failed for want of a receiver keeps that
    message through a successful load of [leaf]. *)
Lemma last_exception_kept_witness :
  succeeds Demo.host Demo.v8 Demo.failed Demo.reloaded ∧
  last_exception Demo.failed = "v8worker: callback not registered with $recv" ∧
  last_exception Demo.reloaded = last_exception Demo.failed.
Proof.
  assert (H : succeeds Demo.host Demo.v8 Demo.failed Demo.reloaded).
  { apply (load_module_0 _ _ 1%nat "leaf"). vm_compute. reflexivity. }
  split; [exact H|]. split; [reflexivity|].
  exact (last_exception_kept Demo.host Demo.v8 _ _ H).
Defined.

(** [worker_send] on a worker whose receiver echoes through [$send]. *)
Lemma Demo_entry_call : entry_call Demo.host Demo.v8 Demo.registered Demo.sent.
Proof. apply (call_send _ _ "hi" _ 0). vm_compute. reflexivity. Qed.

(** In that call [recvCb] runs at lock depth 1. *)
Lemma callbacks_run_under_the_entry_lock_witness :
  entry_call Demo.host Demo.v8 Demo.registered Demo.sent ∧
  ∃ new, events Demo.sent = events Demo.registered ++ new ∧
    lock_depth 0 new = 0 ∧ Forall (λ d, d = 1) (callback_depths 0 new).
Proof.
  split; [apply Demo_entry_call|].
  exact (callbacks_run_under_the_entry_lock Demo.host Demo.v8 _ _
           Demo_entry_call).
Defined.

(** C9, as stated, fails: were the lock released before the host callback,
    every call of [recvCb] in a call of an entry point would happen at lock
    depth 0.  The receiver of [Demo.registered] calls [$send], and
    [recvCb] runs at depth 1, under the [Locker] of [worker_send]. *)
Lemma lock_held_during_recvCb :
  ¬ (∀ host v8 w w', entry_call host v8 w w' →
       ∃ new, events w' = events w ++ new ∧
         Forall (λ d, d = 0) (callback_depths 0 new)).
Proof.
  intros Hclaim.
  destruct (Hclaim _ _ _ _ Demo_entry_call) as (new & Hev & Hall).
  assert (Hnew : new = [Locker_acquire; Locker_acquire; Locker_release;
                        recvCb_call 1 "hi"; Locker_release]).
  { apply (app_inv_head (events Demo.registered)). rewrite <- Hev.
    vm_compute. reflexivity. }
  subst new. simpl in Hall. inversion Hall as [|? ? Hd _]. discriminate Hd.
Qed.

(** * The rest of the file *)

(** ** [Print], [CopyString] and [worker_last_exception] *)

Lemma Print_args_rest (f : option string → string) (args : list (option string))
    (stdout : string) :
  (∀ str, f str = until_nul (ToCString str)) →
  Print_args false args stdout
  = stdout +:+ foldr (λ str rest, " " +:+ f str +:+ rest) "" args.
Proof.
  intros Hf. revert stdout.
  induction args as [|str args IH]; intros stdout; simpl.
  - rewrite append_empty_r. reflexivity.
  - rewrite IH, <- Hf, !append_assoc. reflexivity.
Qed.

Lemma concat_space (f : option string → string) (str : option string)
    (args : list (option string)) :
  f str +:+ foldr (λ str rest, " " +:+ f str +:+ rest) "" args
  = String.concat " " (map f (str :: args)).
Proof.
  revert str. induction args as [|str' args IH]; intros str.
  - simpl. apply append_empty_r.
  - change (String.concat " " (map f (str :: str' :: args)))
      with (f str +:+ " " +:+ String.concat " " (map f (str' :: args))).
    rewrite <- IH. reflexivity.
Qed.

(** X1. [$print] appends to stdout its arguments, each as a C string,
    separated by single spaces and closed by a newline; without arguments
    it appends the newline alone. *)
Theorem Print_output (args : list (option string)) (stdout : string) :
  Print args stdout
  = stdout +:+
    String.concat " " (map (λ str, until_nul (ToCString str)) args) +:+ nl.
Proof.
  unfold Print. destruct args as [|str args]; simpl.
  - reflexivity.
  - rewrite (Print_args_rest (λ str, until_nul (ToCString str))) by reflexivity.
    rewrite !append_assoc. f_equal.
    rewrite <- append_assoc.
    rewrite (concat_space (λ str, until_nul (ToCString str))).
    reflexivity.
Qed.

Lemma strlen_with (s : string) :
  "000"%char ∈ list_ascii_of_string s → (strlen s < String.length s)%nat.
Proof.
  unfold strlen. induction s as [|c s IH]; simpl.
  - intros Hin. inversion Hin.
  - intros Hin. case_decide as Hc; simpl; [lia|].
    apply elem_of_cons in Hin as [Heq|Hin]; [congruence|].
    specialize (IH Hin). lia.
Qed.

(** X2. [CopyString] allocates as many bytes as the string has characters
    and writes its characters up to the first NUL and a terminator: for a
    string without a NUL character it writes one byte more than it has
    allocated, and for a string with one it stays within the allocation. *)
Theorem CopyString_bounds (value : string) :
  if decide ("000"%char ∈ list_ascii_of_string value)
  then (CopyString_written value ≤ CopyString_allocated value)%nat
  else CopyString_written value = S (CopyString_allocated value).
Proof.
  unfold CopyString_written, CopyString_allocated.
  case_decide as Hnul.
  - pose proof (strlen_with value Hnul). lia.
  - unfold strlen. rewrite (until_nul_without value Hnul). reflexivity.
Qed.

Lemma ExceptionString_line (try_catch : option Thrown) :
  ∃ s, ExceptionString try_catch = s +:+ nl.
Proof.
  unfold ExceptionString.
  destruct (try_catch ≫= GetMessage) as [message|]; [|eauto].
  cbv zeta. case_decide; eauto.
Qed.

Lemma ExceptionString_not_empty (try_catch : option Thrown) :
  ExceptionString try_catch ≠ "".
Proof.
  destruct (ExceptionString_line try_catch) as [s ->].
  destruct s; discriminate.
Qed.

(** ** The entry points that run a script *)

Section ScriptCalls.
Context (host : Host) (v8 : V8).

Local Arguments ExceptionString : simpl never.

(** X3. [worker_load_script] returns 1 with the diagnostic of the compile
    error when the source does not compile, 2 with the diagnostic of the
    exception when the script throws, and 0 with [last_exception] left as
    it was when it completes. *)
Theorem worker_load_script_codes (name_s source_s : string) (w : worker) :
  match Compile v8 name_s source_s with
  | inl e =>
      ∃ w', worker_load_script host v8 name_s source_s w = Done (1, w') ∧
        last_exception w' = ExceptionString (Some e)
  | inr script =>
      match run host script (set_try_catch None (emit Locker_acquire w)) with
      | Done (None, w1) =>
          ∃ e w', try_catch w1 = Some e ∧
            worker_load_script host v8 name_s source_s w = Done (2, w') ∧
            last_exception w' = ExceptionString (Some e)
      | Done (Some _, _) =>
          ∃ w', worker_load_script host v8 name_s source_s w = Done (0, w') ∧
            last_exception w' = last_exception w
      | Crash => worker_load_script host v8 name_s source_s w = Crash
      | OutOfFuel => False
      end
  end.
Proof.
  unfold worker_load_script.
  destruct (Compile v8 name_s source_s) as [e|script].
  { eexists. split; reflexivity. }
  destruct (run host script _) as [[r w1]| |] eqn:E; simpl.
  - destruct (run_step _ _ _ _ _ E) as (new & Hs & Hr).
    destruct r as [v|].
    + eexists. split; [reflexivity|]. simpl. apply Hs.
    + destruct Hr as [e He]. exists e. eexists.
      split; [exact He|]. split; [reflexivity|]. simpl.
      rewrite He. reflexivity.
  - reflexivity.
  - exact (run_fuel_free _ _ _ E).
Qed.

Lemma compilations_app (url : string) (tr1 tr2 : list Event) :
  compilations url (tr1 ++ tr2)
  = (compilations url tr1 + compilations url tr2)%nat.
Proof.
  induction tr1 as [|e tr1 IH]; [reflexivity|].
  destruct e; simpl; try case_decide; rewrite IH; reflexivity.
Qed.

(** A script adds [Locker]s and host callbacks to the trace, nothing
    else, and may replace a receiver but not remove one. *)
Lemma run_script_events (s : Script) (w w' : worker) (r : option Value) :
  run host s w = Done (r, w') →
  (∃ new, events w' = events w ++ new ∧ forallb script_event new = true) ∧
  (is_Some (recv w) → is_Some (recv w')) ∧
  (is_Some (recv_sync_handler w) → is_Some (recv_sync_handler w')).
Proof.
  revert w. induction s as [v|e|arg k IH|arg k IH|arg k IH|arg k IH];
    intros w; simpl.
  - intros [= <- <-]. split; [|auto]. exists []. by rewrite app_nil_r.
  - intros [= <- <-]. split; [|auto]. exists []. by rewrite app_nil_r.
  - destruct arg as [|func|]; simpl; try discriminate.
    intros Hk. destruct (IH _ Hk) as ((new & He & Hn) & Hr & Hs).
    simpl in *. split; [eauto|]. split; eauto.
  - destruct arg as [|func|]; simpl; try discriminate.
    intros Hk. destruct (IH _ Hk) as ((new & He & Hn) & Hr & Hs).
    simpl in *. split; [eauto|]. split; eauto.
  - destruct arg as [msg| |]; simpl; try discriminate.
    intros Hk. destruct (IH _ Hk) as ((new & He & Hn) & Hr & Hs).
    simpl in *. split; [|auto].
    exists ([Locker_acquire; Locker_release;
           recvCb_call (id w) (until_nul msg)] ++ new).
    rewrite He, <- !app_assoc. split; [reflexivity|exact Hn].
  - destruct arg as [msg| |]; simpl; try discriminate.
    intros Hk. destruct (IH _ _ Hk) as ((new & He & Hn) & Hr & Hs).
    simpl in *. split; [|auto].
    exists ([Locker_acquire; Locker_release;
           recvSyncCb_call (id w) (until_nul msg)] ++ new).
    rewrite He, <- !app_assoc. split; [reflexivity|exact Hn].
Qed.

Lemma script_events_quiet (url : string) (new : list Event) :
  forallb script_event new = true →
  fetches url new = 0%nat ∧ compilations url new = 0%nat.
Proof.
  induction new as [|e new IH]; [auto|].
  destruct e; simpl; try discriminate; exact IH.
Qed.

Lemma run_quiet (s : Script) (w w' : worker) (r : option Value) (url : string) :
  run host s w = Done (r, w') →
  fetches url (events w') = fetches url (events w) ∧
  compilations url (events w') = compilations url (events w).
Proof.
  intros E. destruct (run_script_events _ _ _ _ E) as ((new & He & Hn) & _).
  destruct (script_events_quiet url new Hn) as [Hf Hc].
  rewrite He, fetches_app, compilations_app, Hf, Hc. lia.
Qed.

(** X4. [worker_load_script], [worker_send] and [worker_send_sync] leave
    the module data alone: the two maps and the next module identity are
    as before, and the host is not asked for a module text nor the engine
    for a module compilation. *)
Theorem script_call_keeps_modules (w w' : worker) :
  script_call host v8 w w' →
  id w' = id w ∧ module_data w' = module_data w ∧
  next_module w' = next_module w ∧
  ∀ url, fetches url (events w') = fetches url (events w) ∧
         compilations url (events w') = compilations url (events w).
Proof.
  assert (Hlock : ∀ (s : Script) (w0 w1 w2 : worker) (r : option Value)
                    (url : string),
            events w1 = events w0 ++ [Locker_acquire] →
            run host s w1 = Done (r, w2) →
            fetches url (events w2 ++ [Locker_release]) = fetches url (events w0) ∧
            compilations url (events w2 ++ [Locker_release])
            = compilations url (events w0)).
  { intros s w0 w1 w2 r url H1 E.
    destruct (run_quiet _ _ _ _ url E) as [Hf Hc].
    rewrite fetches_app, compilations_app, Hf, Hc, H1,
      fetches_app, compilations_app. simpl. lia. }
  intros [name_s source_s w0 rc w0' H|msg w0 rc w0' H|msg w0 out w0' H].
  - unfold worker_load_script in H.
    destruct (Compile v8 name_s source_s) as [e|script].
    { injection H as _ <-. simpl. repeat split;
        rewrite ?fetches_app, ?compilations_app; simpl; lia. }
    destruct (run host script _) as [[r w1]| |] eqn:E; simpl in H;
      try discriminate.
    destruct (run_step _ _ _ _ _ E) as (new & (Hi & _ & Hm & Hn & _) & _).
    destruct r; injection H as _ <-; simpl;
      (split; [exact Hi|]; split; [exact Hm|]; split; [exact Hn|]);
      intros url; refine (Hlock _ w0 _ _ _ url _ E); reflexivity.
  - unfold worker_send in H. simpl in H.
    destruct (recv w0) as [receiver|].
    2:{ injection H as _ <-. simpl. repeat split;
          rewrite ?fetches_app, ?compilations_app; simpl; lia. }
    destruct (run host _ _) as [[r w1]| |] eqn:E; simpl in H; try discriminate.
    destruct (run_step _ _ _ _ _ E) as (new & (Hi & _ & Hm & Hn & _) & _).
    destruct (decide _); injection H as _ <-; simpl;
      (split; [exact Hi|]; split; [exact Hm|]; split; [exact Hn|]);
      intros url; refine (Hlock _ w0 _ _ _ url _ E); reflexivity.
  - unfold worker_send_sync in H. simpl in H.
    destruct (recv_sync_handler w0) as [receiver|].
    2:{ injection H as _ <-. simpl. repeat split;
          rewrite ?fetches_app, ?compilations_app; simpl; lia. }
    destruct (run host _ _) as [[r w1]| |] eqn:E; simpl in H; try discriminate.
    destruct (run_step _ _ _ _ _ E) as (new & (Hi & _ & Hm & Hn & _) & _).
    destruct r as [[response|call|]|]; try discriminate;
      injection H as _ <-; simpl;
      (split; [exact Hi|]; split; [exact Hm|]; split; [exact Hn|]);
      intros url; refine (Hlock _ w0 _ _ _ url _ E); reflexivity.
Qed.

(** X5. No entry point unregisters a receiver: a worker that has a
    receiver registered with [$recv], or with [$recvSync], still has one
    after any call that returns. *)
Theorem receivers_stay (w w' : worker) :
  entry_call host v8 w w' →
  (is_Some (recv w) → is_Some (recv w')) ∧
  (is_Some (recv_sync_handler w) → is_Some (recv_sync_handler w')).
Proof.
  intros [name_s source_s w0 rc w0' H|fuel url_s w0 rc w0' H|msg w0 rc w0' H
         |msg w0 out w0' H].
  - unfold worker_load_script in H.
    destruct (Compile v8 name_s source_s) as [e|script].
    { injection H as _ <-. auto. }
    destruct (run host script _) as [[r w1]| |] eqn:E; simpl in H;
      try discriminate.
    destruct (run_script_events _ _ _ _ E) as (_ & Hr & Hs).
    destruct r; injection H as _ <-; auto.
  - unfold worker_load_module in H.
    destruct (LoadModule host v8 fuel url_s _) as [[mod_ w2]| |] eqn:E;
      simpl in H; try discriminate.
    destruct (LoadModule_sound _ _ _ _ _ _ _ E)
      as (new & (_ & _ & Hr & Hs & _) & _). simpl in Hr, Hs.
    destruct mod_ as [module|]; [|injection H as _ <-; simpl; split; congruence].
    set (instantiated := InstantiateModule _ _) in H.
    assert (Hr2 : recv (catch instantiated w2) = recv w0)
      by (destruct instantiated; exact Hr).
    assert (Hs2 : recv_sync_handler (catch instantiated w2)
                  = recv_sync_handler w0)
      by (destruct instantiated; exact Hs).
    destruct (negb _); [injection H as _ <-; simpl; split; congruence|].
    destruct (run host _ _) as [[r w3]| |] eqn:E3; simpl in H; try discriminate.
    destruct (run_script_events _ _ _ _ E3) as (_ & Hr3 & Hs3).
    rewrite Hr2 in Hr3. rewrite Hs2 in Hs3.
    destruct r; injection H as _ <-; auto.
  - unfold worker_send in H. simpl in H.
    destruct (recv w0) as [receiver|] eqn:Hrecv.
    2:{ injection H as _ <-. simpl. rewrite Hrecv. auto. }
    destruct (run host _ _) as [[r w1]| |] eqn:E; simpl in H; try discriminate.
    destruct (run_script_events _ _ _ _ E) as (_ & Hr & Hs). simpl in Hr, Hs.
    rewrite Hrecv in Hr.
    destruct (decide _); injection H as _ <-; auto.
  - unfold worker_send_sync in H. simpl in H.
    destruct (recv_sync_handler w0) as [receiver|] eqn:Hrecv.
    2:{ injection H as _ <-. simpl. rewrite Hrecv. auto. }
    destruct (run host _ _) as [[r w1]| |] eqn:E; simpl in H; try discriminate.
    destruct (run_script_events _ _ _ _ E) as (_ & Hr & Hs). simpl in Hr, Hs.
    rewrite Hrecv in Hs.
    destruct r as [[response|call|]|]; try discriminate;
      injection H as _ <-; auto.
Qed.

(** X6. After a call of [worker_load_script], [worker_load_module] or
    [worker_send] that returns a code other than 0,
    [worker_last_exception] is not empty: it is the diagnostic of the
    [TryCatch] of the call, or the fixed message about [$recv]. *)
Theorem failure_leaves_diagnostic (w w' : worker) :
  fails host v8 w w' →
  worker_last_exception w' ≠ "" ∧
  (worker_last_exception w' = ExceptionString (try_catch w') ∨
   worker_last_exception w' = "v8worker: callback not registered with $recv").
Proof.
  assert (Hdiag : ∀ w1 : worker,
            worker_last_exception
              (emit Locker_release
                 (set_last_exception (ExceptionString (try_catch w1)) w1)) ≠ "" ∧
            (worker_last_exception
               (emit Locker_release
                  (set_last_exception (ExceptionString (try_catch w1)) w1))
             = ExceptionString
                 (try_catch
                    (emit Locker_release
                       (set_last_exception (ExceptionString (try_catch w1)) w1))) ∨
             worker_last_exception
               (emit Locker_release
                  (set_last_exception (ExceptionString (try_catch w1)) w1))
             = "v8worker: callback not registered with $recv")).
  { intros w1. unfold worker_last_exception, CopyString. simpl.
    rewrite (until_nul_without _ (ExceptionString_nul_free _)).
    split; [apply ExceptionString_not_empty|left; reflexivity]. }
  intros [name_s source_s w0 rc w0' H Hrc|fuel url_s w0 rc w0' H Hrc
         |msg w0 rc w0' H Hrc].
  - unfold worker_load_script in H.
    destruct (Compile v8 name_s source_s) as [e|script].
    { injection H as _ <-. apply Hdiag. }
    destruct (run host script _) as [[r w1]| |] eqn:E; simpl in H;
      try discriminate.
    destruct r; injection H as <- <-; [congruence|apply Hdiag].
  - unfold worker_load_module in H.
    destruct (LoadModule host v8 fuel url_s _) as [[mod_ w2]| |] eqn:E;
      simpl in H; try discriminate.
    destruct mod_ as [module|]; [|injection H as _ <-; apply Hdiag].
    destruct (negb _); [injection H as _ <-; apply Hdiag|].
    destruct (run host _ _) as [[r w3]| |] eqn:E3; simpl in H; try discriminate.
    destruct r; injection H as <- <-; [congruence|apply Hdiag].
  - unfold worker_send in H. simpl in H.
    destruct (recv w0) as [receiver|].
    2:{ injection H as _ <-. unfold worker_last_exception, CopyString. simpl.
        split; [discriminate|right; reflexivity]. }
    destruct (run host _ _) as [[r w1]| |] eqn:E; simpl in H; try discriminate.
    destruct (decide _); injection H as <- <-; [apply Hdiag|congruence].
Qed.

End ScriptCalls.

(** ** The module data *)

Section Cache.
Context (host : Host) (v8 : V8).

Local Arguments ExceptionString : simpl never.

(** Induction over the calls of [LoadModule] and of its loop. *)
Lemma LoadModule_rule
    (P : nat → string → worker → option Module → worker → Prop)
    (Q : nat → list string → worker → bool → worker → Prop) :
  (∀ fuel url w e,
     compiled host v8 (id w) url = inl e →
     P (S fuel) url w None (set_try_catch (Some e) (fetched url w))) →
  (∀ fuel url w c loaded w',
     compiled host v8 (id w) url = inr c →
     load_requests (LoadModule host v8 fuel) (GetModuleRequests c)
       (inserted url w) = Done (loaded, w') →
     Q fuel (GetModuleRequests c) (inserted url w) loaded w' →
     P (S fuel) url w
       (if loaded : bool
        then Some {| identity := next_module w; code := c |} else None) w') →
  (∀ fuel w, Q fuel [] w true w) →
  (∀ fuel name requests w w1,
     LoadModule host v8 fuel name w = Done (None, w1) →
     P fuel name w None w1 → Q fuel (name :: requests) w false w1) →
  (∀ fuel name requests w module w1 loaded w',
     LoadModule host v8 fuel name w = Done (Some module, w1) →
     P fuel name w (Some module) w1 →
     load_requests (LoadModule host v8 fuel) requests w1 = Done (loaded, w') →
     Q fuel requests w1 loaded w' →
     Q fuel (name :: requests) w loaded w') →
  ∀ fuel,
    (∀ url w mod_ w',
       LoadModule host v8 fuel url w = Done (mod_, w') → P fuel url w mod_ w') ∧
    (∀ requests w loaded w',
       load_requests (LoadModule host v8 fuel) requests w = Done (loaded, w') →
       Q fuel requests w loaded w').
Proof.
  intros Hfail Hok Hnil Hstop Hnext.
  assert (Hloop : ∀ fuel,
            (∀ url w mod_ w', LoadModule host v8 fuel url w = Done (mod_, w') →
                              P fuel url w mod_ w') →
            ∀ requests w loaded w',
              load_requests (LoadModule host v8 fuel) requests w
              = Done (loaded, w') →
              Q fuel requests w loaded w').
  { intros fuel HP requests.
    induction requests as [|name requests IH]; intros w loaded w'; simpl.
    - intros [= <- <-]. apply Hnil.
    - destruct (LoadModule host v8 fuel name w) as [[[module|] w1]| |] eqn:E;
        simpl; try discriminate.
      + intros Hrest. eapply Hnext; eauto.
      + intros [= <- <-]. eapply Hstop; eauto. }
  induction fuel as [|fuel [IHP IHQ]].
  - assert (HP : ∀ url w mod_ w',
              LoadModule host v8 0 url w = Done (mod_, w') → P 0%nat url w mod_ w')
      by discriminate.
    split; [exact HP|apply Hloop, HP].
  - assert (HP : ∀ url w mod_ w',
              LoadModule host v8 (S fuel) url w = Done (mod_, w') →
              P (S fuel) url w mod_ w').
    { intros url w mod_ w'.
      destruct (compiled host v8 (id w) url) as [e|c] eqn:Hc.
      - rewrite (LoadModule_empty _ _ _ _ _ _ Hc). intros [= <- <-].
        by apply Hfail.
      - rewrite (LoadModule_compiled _ _ _ _ _ _ Hc).
        destruct (load_requests _ _ _) as [[loaded w1]| |] eqn:E; simpl;
          try discriminate.
        pose proof (Hok _ _ _ _ _ _ Hc E (IHQ _ _ _ _ E)) as HPok.
        destruct loaded; intros [= <- <-]; exact HPok. }
    split; [exact HP|apply Hloop, HP].
Qed.

Lemma umap_insert_keeps `{Countable K} {V : Type} (k k' : K) (v x : V)
    (m : gmap K V) :
  m !! k' = Some x → umap_insert k v m !! k' = Some x.
Proof.
  intros Hx. unfold umap_insert. destruct (m !! k) eqn:E; [exact Hx|].
  destruct (decide (k = k')) as [->|Hne]; [congruence|].
  by rewrite lookup_insert_ne.
Qed.

Lemma umap_insert_new `{Countable K} {V : Type} (k : K) (v : V)
    (m : gmap K V) :
  m !! k = None → umap_insert k v m !! k = Some v.
Proof. intros E. unfold umap_insert. rewrite E. apply lookup_insert_eq. Qed.

Lemma umap_insert_first `{Countable K} {V : Type} (k : K) (v : V)
    (m : gmap K V) :
  umap_insert k v m !! k = Some (default v (m !! k)).
Proof.
  destruct (m !! k) as [x|] eqn:E; simpl.
  - by apply umap_insert_keeps.
  - by apply umap_insert_new.
Qed.

Lemma grows_refl (w : worker) : grows w w.
Proof. unfold grows. auto. Qed.

Lemma grows_trans (w1 w2 w3 : worker) :
  grows w1 w2 → grows w2 w3 → grows w1 w3.
Proof.
  intros (Hi1 & Hn1 & Hu1 & Hm1) (Hi2 & Hn2 & Hu2 & Hm2).
  unfold grows. repeat split; [congruence|lia|auto|auto].
Qed.

Lemma grows_same (w w' : worker) :
  id w' = id w → module_data w' = module_data w →
  next_module w' = next_module w → grows w w'.
Proof. intros Hi Hm Hn. unfold grows. rewrite Hi, Hm, Hn. auto. Qed.

Lemma grows_inserted (url : string) (w : worker) : grows w (inserted url w).
Proof.
  unfold grows. simpl. repeat split; [lia|..];
    intros; by apply umap_insert_keeps.
Qed.

Lemma cache_wf_same (w w' : worker) :
  module_data w' = module_data w → next_module w' = next_module w →
  cache_wf w → cache_wf w'.
Proof. intros Hm Hn. unfold cache_wf. rewrite Hm, Hn. auto. Qed.

Lemma cache_wf_inserted (url : string) (w : worker) :
  cache_wf w → cache_wf (inserted url w).
Proof.
  intros [Hback Hbelow]. unfold cache_wf. simpl. split.
  - intros u x Hx. apply lookup_umap_insert in Hx as [Hold|[-> ->]].
    + apply umap_insert_keeps, Hback, Hold.
    + apply umap_insert_new.
      destruct (module_to_url_map (module_data w) !! next_module w) eqn:E;
        [|reflexivity].
      apply Hbelow in E. lia.
  - intros x u Hx. apply lookup_umap_insert in Hx as [Hold|[-> _]]; [|lia].
    apply Hbelow in Hold. lia.
Qed.

(** [LoadModule] and its loop keep every entry of the two maps. *)
Lemma LoadModule_grows (fuel : nat) :
  (∀ url w mod_ w',
     LoadModule host v8 fuel url w = Done (mod_, w') → grows w w') ∧
  (∀ requests w loaded w',
     load_requests (LoadModule host v8 fuel) requests w = Done (loaded, w') →
     grows w w').
Proof.
  apply (LoadModule_rule (λ _ _ w _ w', grows w w') (λ _ _ w _ w', grows w w')).
  - intros _ url w e _. by apply grows_same.
  - intros _ url w c loaded w' _ _ Hq.
    eapply grows_trans; [apply grows_inserted|exact Hq].
  - intros _ w. apply grows_refl.
  - auto.
  - intros _ name requests w module w1 loaded w' _ Hp _ Hq.
    eapply grows_trans; eauto.
Qed.

Lemma LoadModule_cache_wf (fuel : nat) :
  (∀ url w mod_ w',
     LoadModule host v8 fuel url w = Done (mod_, w') →
     cache_wf w → cache_wf w') ∧
  (∀ requests w loaded w',
     load_requests (LoadModule host v8 fuel) requests w = Done (loaded, w') →
     cache_wf w → cache_wf w').
Proof.
  apply (LoadModule_rule (λ _ _ w _ w', cache_wf w → cache_wf w')
           (λ _ _ w _ w', cache_wf w → cache_wf w')).
  - intros _ url w e _. by apply cache_wf_same.
  - intros _ url w c loaded w' _ _ Hq Hwf.
    apply Hq, cache_wf_inserted, Hwf.
  - auto.
  - auto.
  - intros _ name requests w module w1 loaded w' _ Hp _ Hq Hwf. auto.
Qed.

Lemma keeps_cache_same (w w' : worker) :
  id w' = id w → module_data w' = module_data w →
  next_module w' = next_module w → keeps_cache host v8 w w'.
Proof.
  intros Hi Hm Hn. split; [by apply grows_same|].
  split; [by apply cache_wf_same|]. rewrite Hm. congruence.
Qed.

Lemma entry_call_keeps_cache (w w' : worker) :
  entry_call host v8 w w' → keeps_cache host v8 w w'.
Proof.
  intros [name_s source_s w0 rc w0' H|fuel url_s w0 rc w0' H|msg w0 rc w0' H
         |msg w0 out w0' H].
  - unfold worker_load_script in H.
    destruct (Compile v8 name_s source_s) as [e|script].
    { injection H as _ <-. by apply keeps_cache_same. }
    destruct (run host script _) as [[r w1]| |] eqn:E; simpl in H;
      try discriminate.
    destruct (run_step _ _ _ _ _ E) as (new & (Hi & _ & Hm & Hn & _) & _).
    destruct r; injection H as _ <-; by apply keeps_cache_same.
  - unfold worker_load_module in H.
    destruct (LoadModule host v8 fuel url_s _) as [[mod_ w2]| |] eqn:E;
      simpl in H; try discriminate.
    assert (Hk : keeps_cache host v8 w0 w2).
    { split; [exact (proj1 (LoadModule_grows fuel) _ _ _ _ E)|].
      split; [exact (proj1 (LoadModule_cache_wf fuel) _ _ _ _ E)|].
      destruct (LoadModule_sound _ _ _ _ _ _ _ E)
        as (new & (_ & _ & _ & _ & _ & _ & _ & Hu & _) & _). exact Hu. }
    assert (Hsame : ∀ w3 : worker,
              id w3 = id w2 → module_data w3 = module_data w2 →
              next_module w3 = next_module w2 → keeps_cache host v8 w0 w3).
    { intros w3 Hi Hm Hn. destruct Hk as (Hg & Hwf & Hu).
      split; [eapply grows_trans; [exact Hg|by apply grows_same]|].
      split; [intros Hw; eapply cache_wf_same; eauto|].
      rewrite Hm. exact Hu. }
    destruct mod_ as [module|]; [|injection H as _ <-; by apply Hsame].
    set (instantiated := InstantiateModule _ _) in H.
    assert (Hc : id (catch instantiated w2) = id w2 ∧
                 module_data (catch instantiated w2) = module_data w2 ∧
                 next_module (catch instantiated w2) = next_module w2)
      by (destruct instantiated; auto).
    destruct Hc as (Hci & Hcm & Hcn).
    destruct (negb _); [injection H as _ <-; by apply Hsame|].
    destruct (run host _ _) as [[r w3]| |] eqn:E3; simpl in H; try discriminate.
    destruct (run_step _ _ _ _ _ E3) as (new3 & (Hi & _ & Hm & Hn & _) & _).
    destruct r; injection H as _ <-; apply Hsame; simpl; congruence.
  - unfold worker_send in H. simpl in H.
    destruct (recv w0) as [receiver|];
      [|injection H as _ <-; by apply keeps_cache_same].
    destruct (run host _ _) as [[r w1]| |] eqn:E; simpl in H; try discriminate.
    destruct (run_step _ _ _ _ _ E) as (new & (Hi & _ & Hm & Hn & _) & _).
    destruct (decide _); injection H as _ <-; by apply keeps_cache_same.
  - unfold worker_send_sync in H. simpl in H.
    destruct (recv_sync_handler w0) as [receiver|];
      [|injection H as _ <-; by apply keeps_cache_same].
    destruct (run host _ _) as [[r w1]| |] eqn:E; simpl in H; try discriminate.
    destruct (run_step _ _ _ _ _ E) as (new & (Hi & _ & Hm & Hn & _) & _).
    destruct r as [[response|call|]|]; try discriminate;
      injection H as _ <-; by apply keeps_cache_same.
Qed.

(** X7. No entry point removes or replaces an entry of the module data:
    a url keeps the module it was first mapped to, a module object keeps
    its url, the worker keeps its id, and module identities are not handed
    out again. *)
Theorem entry_call_grows (w w' : worker) :
  entry_call host v8 w w' → grows w w'.
Proof. intros H. apply (entry_call_keeps_cache _ _ H). Qed.

(** X8. In every worker the entry points produce from [worker_init],
    each url of [url_to_module_map] is mapped back to by its module in
    [module_to_url_map], and every key of [module_to_url_map] is a module
    object made so far. *)
Theorem reachable_cache_wf (w : worker) :
  reachable host v8 w → cache_wf w.
Proof.
  induction 1 as [wid enable_print|w w' _ IH Hcall].
  - split; simpl; intros ? ?; rewrite lookup_empty; discriminate.
  - apply (entry_call_keeps_cache _ _ Hcall), IH.
Qed.

(** X9. In every worker the entry points produce from [worker_init],
    [url_to_module_map] holds only urls whose module text compiles: a
    module that fails to compile is never a key of it. *)
Theorem reachable_cached_compile (w : worker) (url : string) (module : nat) :
  reachable host v8 w →
  url_to_module_map (module_data w) !! url = Some module →
  ∃ c, compiled host v8 (id w) url = inr c.
Proof.
  intros Hr. revert module.
  induction Hr as [wid enable_print|w w' _ IH Hcall]; intros module.
  - simpl. rewrite lookup_empty. discriminate.
  - destruct (entry_call_keeps_cache _ _ Hcall) as ((Hi & _) & _ & Hu).
    rewrite Hi. intros Hm.
    destruct (decide (url_to_module_map (module_data w') !! url
                      = url_to_module_map (module_data w) !! url)) as [Heq|Hne].
    + rewrite Hm in Heq. eauto.
    + exact (Hu _ Hne).
Qed.

End Cache.

(** ** What a load leaves behind *)

Section Loaded.
Context (host : Host) (v8 : V8).

Lemma inserted_events (url : string) (w : worker) :
  events (inserted url w)
  = events w ++ [getModuleSource_call (id w) url; CompileModule_call url].
Proof. simpl. rewrite <- app_assoc. reflexivity. Qed.

Lemma LoadModule_resolves (fuel : nat) :
  (∀ url w mod_ w',
     LoadModule host v8 fuel url w = Done (mod_, w') →
     is_Some mod_ → ∀ v, reach host v8 (id w) url v →
     is_Some (ResolveModuleCallback (module_data w') v)) ∧
  (∀ requests w loaded w',
     load_requests (LoadModule host v8 fuel) requests w = Done (loaded, w') →
     loaded = true → ∀ name v, name ∈ requests →
     reach host v8 (id w) name v →
     is_Some (ResolveModuleCallback (module_data w') v)).
Proof.
  apply (LoadModule_rule host v8
           (λ _ url w mod_ w',
              is_Some mod_ → ∀ v, reach host v8 (id w) url v →
              is_Some (ResolveModuleCallback (module_data w') v))
           (λ _ requests w loaded w',
              loaded = true → ∀ name v, name ∈ requests →
              reach host v8 (id w) name v →
              is_Some (ResolveModuleCallback (module_data w') v))).
  - intros _ url w e _ [? [=]].
  - intros fuel' url w c loaded w' Hc E Hq Hsome.
    destruct loaded; [|destruct Hsome; discriminate].
    intros v Hreach.
    inversion Hreach as [|? c' name ? Hc' Hin Hr]; subst.
    + destruct (proj2 (LoadModule_grows host v8 fuel') _ _ _ _ E)
        as (_ & _ & Hu & _).
      unfold ResolveModuleCallback. erewrite Hu; [eauto|].
      simpl. apply umap_insert_first.
    + rewrite Hc in Hc'. injection Hc' as <-.
      exact (Hq eq_refl name v Hin Hr).
  - intros _ w _ name v Hin. inversion Hin.
  - intros _ name requests w w1 _ _ [=].
  - intros fuel' name requests w module w1 loaded w' E Hp Erest Hq -> name' v
      Hin Hreach.
    destruct (proj1 (LoadModule_grows host v8 fuel') _ _ _ _ E) as (Hi & _).
    apply elem_of_cons in Hin as [->|Hin].
    + destruct (Hp ltac:(eauto) v Hreach) as [x Hx].
      destruct (proj2 (LoadModule_grows host v8 fuel') _ _ _ _ Erest)
        as (_ & _ & Hu & _).
      exists x. apply Hu, Hx.
    + rewrite <- Hi in Hreach. exact (Hq eq_refl name' v Hin Hreach).
Qed.

(** X10. After [LoadModule] has returned a module for [url], the resolve
    callback finds a module for [url] and for every import in its reach:
    the lookup of [ResolveModuleCallback] does not miss during the
    instantiation that follows. *)
Theorem loaded_graph_resolves (fuel : nat) (url v : string) (w w' : worker)
    (module : Module) :
  LoadModule host v8 fuel url w = Done (Some module, w') →
  reach host v8 (id w) url v →
  is_Some (ResolveModuleCallback (module_data w') v).
Proof.
  intros E Hreach.
  exact (proj1 (LoadModule_resolves fuel) _ _ _ _ E ltac:(eauto) v Hreach).
Qed.

(** X11. The module [LoadModule] returns for [url] is a new module
    object, and [module_to_url_map] maps it to [url]; the resolve callback
    answers for [url] the module it was first mapped to, which is the
    returned one only when [url] was not a key before. *)
Theorem first_module_wins (fuel : nat) (url : string) (w w' : worker)
    (module : Module) :
  cache_wf w →
  LoadModule host v8 fuel url w = Done (Some module, w') →
  identity module = next_module w ∧
  module_to_url_map (module_data w) !! identity module = None ∧
  module_to_url_map (module_data w') !! identity module = Some url ∧
  ResolveModuleCallback (module_data w') url
  = Some (default (identity module)
            (ResolveModuleCallback (module_data w) url)).
Proof.
  intros [Hback Hbelow] E. destruct fuel as [|fuel]; [discriminate|].
  destruct (compiled host v8 (id w) url) as [e|c] eqn:Hc.
  { rewrite (LoadModule_empty _ _ _ _ _ _ Hc) in E. discriminate. }
  rewrite (LoadModule_compiled _ _ _ _ _ _ Hc) in E.
  destruct (load_requests _ _ _) as [[loaded w1]| |] eqn:El; simpl in E;
    try discriminate.
  destruct loaded; [|discriminate]. injection E as <- <-. simpl.
  destruct (proj2 (LoadModule_grows host v8 fuel) _ _ _ _ El)
    as (_ & _ & Hu & Hm).
  assert (Hfresh : module_to_url_map (module_data w) !! next_module w = None).
  { destruct (module_to_url_map (module_data w) !! next_module w) eqn:E;
      [|reflexivity].
    apply Hbelow in E. lia. }
  repeat split; [exact Hfresh|..].
  - apply Hm. simpl. by apply umap_insert_new.
  - unfold ResolveModuleCallback. apply Hu. simpl. apply umap_insert_first.
Qed.

Lemma LoadModule_counts (fuel : nat) :
  (∀ url w mod_ w',
     LoadModule host v8 fuel url w = Done (mod_, w') →
     is_Some mod_ → ∀ v,
     fetches v (events w')
     = (fetches v (events w) + paths host v8 (id w) fuel url v)%nat ∧
     compilations v (events w')
     = (compilations v (events w) + paths host v8 (id w) fuel url v)%nat) ∧
  (∀ requests w loaded w',
     load_requests (LoadModule host v8 fuel) requests w = Done (loaded, w') →
     loaded = true → ∀ v,
     fetches v (events w')
     = (fetches v (events w) +
        foldr (λ name n, paths host v8 (id w) fuel name v + n) 0 requests)%nat ∧
     compilations v (events w')
     = (compilations v (events w) +
        foldr (λ name n, paths host v8 (id w) fuel name v + n) 0 requests)%nat).
Proof.
  revert fuel.
  apply (LoadModule_rule host v8
           (λ fuel url w mod_ w',
              is_Some mod_ → ∀ v,
              fetches v (events w')
              = (fetches v (events w) + paths host v8 (id w) fuel url v)%nat ∧
              compilations v (events w')
              = (compilations v (events w) + paths host v8 (id w) fuel url v)%nat)
           (λ fuel requests w loaded w',
              loaded = true → ∀ v,
              fetches v (events w')
              = (fetches v (events w) +
                 foldr (λ name n, paths host v8 (id w) fuel name v + n) 0
                   requests)%nat ∧
              compilations v (events w')
              = (compilations v (events w) +
                 foldr (λ name n, paths host v8 (id w) fuel name v + n) 0
                   requests)%nat)).
  - intros _ url w e _ [? [=]].
  - intros fuel url w c loaded w' Hc E Hq Hsome.
    destruct loaded; [|destruct Hsome; discriminate].
    intros v. destruct (Hq eq_refl v) as [Hf Hcn].
    rewrite Hf, Hcn, inserted_events, fetches_app, compilations_app.
    change (id (inserted url w)) with (id w).
    cbn [paths]. rewrite Hc. simpl. case_decide; lia.
  - intros fuel w _ v. simpl. lia.
  - intros _ name requests w w1 _ _ [=].
  - intros fuel name requests w module w1 loaded w' E Hp Erest Hq -> v.
    destruct (proj1 (LoadModule_grows host v8 fuel) _ _ _ _ E) as (Hi & _).
    destruct (Hp ltac:(eauto) v) as [Hf1 Hc1].
    destruct (Hq eq_refl v) as [Hf2 Hc2].
    rewrite Hf2, Hc2, Hf1, Hc1, Hi. simpl. lia.
Qed.

Lemma load_requests_mono
    (load load' : string → worker → Result (option Module * worker)) :
  (∀ name w r, load name w = Done r → load' name w = Done r) →
  ∀ requests w r,
    load_requests load requests w = Done r →
    load_requests load' requests w = Done r.
Proof.
  intros Hload requests.
  induction requests as [|name requests IH]; intros w r; simpl; [auto|].
  destruct (load name w) as [[submodule w1]| |] eqn:E; simpl; try discriminate.
  rewrite (Hload _ _ _ E). simpl. destruct submodule; auto.
Qed.

(** A load that has returned returns the same with more depth. *)
Lemma LoadModule_deeper (fuel depth : nat) (url : string) (w : worker)
    (r : option Module * worker) :
  (fuel ≤ depth)%nat →
  LoadModule host v8 fuel url w = Done r →
  LoadModule host v8 depth url w = Done r.
Proof.
  assert (Hstep : ∀ fuel url w r,
            LoadModule host v8 fuel url w = Done r →
            LoadModule host v8 (S fuel) url w = Done r).
  { clear. intros fuel.
    induction fuel as [|fuel IH]; intros url w r H; [discriminate|].
    destruct (compiled host v8 (id w) url) as [e|c] eqn:Hc.
    - rewrite (LoadModule_empty host v8 fuel _ _ _ Hc) in H.
      rewrite (LoadModule_empty host v8 (S fuel) _ _ _ Hc). exact H.
    - rewrite (LoadModule_compiled host v8 fuel _ _ _ Hc) in H.
      rewrite (LoadModule_compiled host v8 (S fuel) _ _ _ Hc).
      destruct (load_requests (LoadModule host v8 fuel) _ _)
        as [[loaded w1]| |] eqn:E; simpl in H; try discriminate.
      rewrite (load_requests_mono _ _ IH _ _ _ E). exact H. }
  induction 1 as [|depth _ IH]; [auto|]. intros H. apply Hstep, IH, H.
Qed.

(** X12. A load of [url] that returns a module asks the host for the text
    of a module [v], and compiles it, once for every import path from
    [url] to [v], however long: a module imported along several paths is
    fetched and compiled that many times. *)
Theorem fetched_once_per_path (fuel depth : nat) (url v : string)
    (w w' : worker) (module : Module) :
  LoadModule host v8 fuel url w = Done (Some module, w') →
  (fuel ≤ depth)%nat →
  fetches v (events w')
  = (fetches v (events w) + paths host v8 (id w) depth url v)%nat ∧
  compilations v (events w')
  = (compilations v (events w) + paths host v8 (id w) depth url v)%nat.
Proof.
  intros E Hle. apply (LoadModule_deeper _ _ _ _ _ Hle) in E.
  exact (proj1 (LoadModule_counts depth) _ _ _ _ E ltac:(eauto) v).
Qed.

Lemma LoadModule_stops (fuel : nat) :
  (∀ url w mod_ w',
     LoadModule host v8 fuel url w = Done (mod_, w') →
     mod_ = None →
     ∃ pre v e,
       events w' = events w ++ pre ++
         [getModuleSource_call (id w) v; CompileModule_call v] ∧
       compiled host v8 (id w) v = inl e ∧ try_catch w' = Some e) ∧
  (∀ requests w loaded w',
     load_requests (LoadModule host v8 fuel) requests w = Done (loaded, w') →
     loaded = false →
     ∃ pre v e,
       events w' = events w ++ pre ++
         [getModuleSource_call (id w) v; CompileModule_call v] ∧
       compiled host v8 (id w) v = inl e ∧ try_catch w' = Some e).
Proof.
  apply (LoadModule_rule host v8
           (λ _ url w mod_ w',
              mod_ = None →
              ∃ pre v e,
                events w' = events w ++ pre ++
                  [getModuleSource_call (id w) v; CompileModule_call v] ∧
                compiled host v8 (id w) v = inl e ∧ try_catch w' = Some e)
           (λ _ requests w loaded w',
              loaded = false →
              ∃ pre v e,
                events w' = events w ++ pre ++
                  [getModuleSource_call (id w) v; CompileModule_call v] ∧
                compiled host v8 (id w) v = inl e ∧ try_catch w' = Some e)).
  - intros _ url w e Hc _. exists [], url, e. simpl.
    rewrite <- app_assoc. auto.
  - intros _ url w c loaded w' Hc _ Hq Hnone.
    destruct loaded; [discriminate|].
    destruct (Hq eq_refl) as (pre & v & e & He & Hv & Ht).
    exists ([getModuleSource_call (id w) url; CompileModule_call url] ++ pre),
      v, e.
    rewrite He, inserted_events, <- !app_assoc. auto.
  - intros _ w [=].
  - intros _ name requests w w1 _ Hp _. exact (Hp eq_refl).
  - intros fuel' name requests w module w1 loaded w' E _ _ Hq ->.
    destruct (Hq eq_refl) as (pre & v & e & He & Hv & Ht).
    destruct (LoadModule_sound _ _ _ _ _ _ _ E)
      as (new & (Hi & _ & _ & _ & He1 & _) & _).
    exists (new ++ pre), v, e.
    rewrite He, He1, Hi, <- !app_assoc in *. auto.
Qed.

(** X13. A load that comes back empty has stopped at the module that did
    not compile: the request for its text and its compilation are the last
    events of the load, and its exception is the one the [TryCatch]
    holds. *)
Theorem load_stops_at_first_failure (fuel : nat) (url : string)
    (w w' : worker) :
  LoadModule host v8 fuel url w = Done (None, w') →
  ∃ pre v e,
    events w' = events w ++ pre ++
      [getModuleSource_call (id w) v; CompileModule_call v] ∧
    compiled host v8 (id w) v = inl e ∧ try_catch w' = Some e.
Proof.
  intros E. exact (proj1 (LoadModule_stops fuel) _ _ _ _ E eq_refl).
Qed.

(** X14. A load is not rolled back: when the module of [url] compiles,
    [url] resolves after [LoadModule] has returned, also when the load came
    back empty because an import failed to compile. *)
Theorem failed_load_keeps_root (fuel : nat) (url : string) (w w' : worker)
    (c : ModuleCode) (mod_ : option Module) :
  compiled host v8 (id w) url = inr c →
  LoadModule host v8 fuel url w = Done (mod_, w') →
  ResolveModuleCallback (module_data w') url
  = Some (default (next_module w) (ResolveModuleCallback (module_data w) url)).
Proof.
  intros Hc E. destruct fuel as [|fuel]; [discriminate|].
  rewrite (LoadModule_compiled _ _ _ _ _ _ Hc) in E.
  destruct (load_requests _ _ _) as [[loaded w1]| |] eqn:El; simpl in E;
    try discriminate.
  destruct (proj2 (LoadModule_grows host v8 fuel) _ _ _ _ El)
    as (_ & _ & Hu & _).
  assert (Hw : w' = w1) by (destruct loaded; congruence). subst w'.
  unfold ResolveModuleCallback. apply Hu. simpl. apply umap_insert_first.
Qed.

End Loaded.

(** ** The rest of the file at work *)

Lemma Demo_load_once :
  entry_call Demo.host Demo.v8 Demo.fresh Demo.loaded_once.
Proof. apply (call_load_module _ _ 1%nat "leaf" _ 0). vm_compute. reflexivity. Qed.

Lemma Demo_load_twice :
  entry_call Demo.host Demo.v8 Demo.loaded_once Demo.loaded_twice.
Proof. apply (call_load_module _ _ 1%nat "leaf" _ 0). vm_compute. reflexivity. Qed.

Lemma Demo_reachable_twice : reachable Demo.host Demo.v8 Demo.loaded_twice.
Proof.
  eapply reachable_call; [|apply Demo_load_twice].
  eapply reachable_call; [|apply Demo_load_once].
  apply (reachable_init _ _ 1 0).
Qed.

Lemma Demo_cache_wf_once : cache_wf Demo.loaded_once.
Proof.
  apply (entry_call_keeps_cache _ _ _ _ Demo_load_once).
  split; simpl; intros ? ?; rewrite lookup_empty; discriminate.
Qed.

Lemma Demo_reach_leaf (wid : Z) : reach Demo.host Demo.v8 wid "top" "leaf".
Proof.
  eapply (reach_import _ _ _ "top" (Demo.importing ["left"; "right"]) "left");
    [reflexivity|apply list_elem_of_here|].
  eapply (reach_import _ _ _ "left" (Demo.importing ["leaf"]) "leaf");
    [reflexivity|apply list_elem_of_here|].
  apply reach_here.
Qed.

(** A [worker_send] on a worker with a receiver leaves the module data
    alone. *)
Lemma script_call_keeps_modules_witness :
  script_call Demo.host Demo.v8 Demo.registered Demo.sent ∧
  module_data Demo.sent = module_data Demo.registered.
Proof.
  assert (H : script_call Demo.host Demo.v8 Demo.registered Demo.sent).
  { apply (script_send _ _ "hi" _ 0). vm_compute. reflexivity. }
  split; [exact H|].
  apply (script_call_keeps_modules Demo.host Demo.v8 _ _ H).
Defined.

(** The receiver registered with [$recv] is still there after a send. *)
Lemma receivers_stay_witness :
  entry_call Demo.host Demo.v8 Demo.registered Demo.sent ∧
  is_Some (recv Demo.registered) ∧ is_Some (recv Demo.sent).
Proof.
  assert (Hr : is_Some (recv Demo.registered)) by (vm_compute; eauto).
  split; [apply Demo_entry_call|]. split; [exact Hr|].
  exact (proj1 (receivers_stay Demo.host Demo.v8 _ _ Demo_entry_call) Hr).
Defined.

(** A send on a fresh worker fails and leaves the fixed message. *)
Lemma failure_leaves_diagnostic_witness :
  fails Demo.host Demo.v8 Demo.fresh Demo.failed ∧
  worker_last_exception Demo.failed ≠ "".
Proof.
  assert (H : fails Demo.host Demo.v8 Demo.fresh Demo.failed).
  { apply (send_fails _ _ "hi" _ 1); [vm_compute; reflexivity|discriminate]. }
  split; [exact H|].
  exact (proj1 (failure_leaves_diagnostic Demo.host Demo.v8 _ _ H)).
Defined.

(** The second load of [leaf] keeps the entries of the first. *)
Lemma entry_call_grows_witness :
  entry_call Demo.host Demo.v8 Demo.loaded_once Demo.loaded_twice ∧
  grows Demo.loaded_once Demo.loaded_twice.
Proof.
  split; [apply Demo_load_twice|].
  exact (entry_call_grows Demo.host Demo.v8 _ _ Demo_load_twice).
Defined.

Lemma reachable_cache_wf_witness :
  reachable Demo.host Demo.v8 Demo.loaded_twice ∧ cache_wf Demo.loaded_twice.
Proof.
  split; [apply Demo_reachable_twice|].
  exact (reachable_cache_wf Demo.host Demo.v8 _ Demo_reachable_twice).
Defined.

Lemma reachable_cached_compile_witness :
  reachable Demo.host Demo.v8 Demo.loaded_twice ∧
  url_to_module_map (module_data Demo.loaded_twice) !! "leaf" = Some 0%nat ∧
  ∃ c, compiled Demo.host Demo.v8 (id Demo.loaded_twice) "leaf" = inr c.
Proof.
  assert (Hl : url_to_module_map (module_data Demo.loaded_twice) !! "leaf"
               = Some 0%nat) by (vm_compute; reflexivity).
  split; [apply Demo_reachable_twice|]. split; [exact Hl|].
  exact (reachable_cached_compile Demo.host Demo.v8 _ _ _
           Demo_reachable_twice Hl).
Defined.

(** After [top] is loaded the resolve callback finds [leaf]. *)
Lemma loaded_graph_resolves_witness :
  ∃ module w',
    LoadModule Demo.host Demo.v8 3 "top" Demo.fresh = Done (Some module, w') ∧
    reach Demo.host Demo.v8 (id Demo.fresh) "top" "leaf" ∧
    is_Some (ResolveModuleCallback (module_data w') "leaf").
Proof.
  destruct (LoadModule Demo.host Demo.v8 3 "top" Demo.fresh)
    as [[[module|] w']| |] eqn:E; try (vm_compute in E; discriminate E).
  exists module, w'. split; [reflexivity|]. split; [apply Demo_reach_leaf|].
  exact (loaded_graph_resolves Demo.host Demo.v8 _ _ _ _ _ _ E
           (Demo_reach_leaf _)).
Defined.

(** Loading [leaf] again makes module 1, and [leaf] still resolves to
    module 0. *)
Lemma first_module_wins_witness :
  cache_wf Demo.loaded_once ∧
  ∃ module w',
    LoadModule Demo.host Demo.v8 1 "leaf" Demo.loaded_once
    = Done (Some module, w') ∧
    identity module = 1%nat ∧
    ResolveModuleCallback (module_data w') "leaf" = Some 0%nat.
Proof.
  split; [apply Demo_cache_wf_once|].
  destruct (LoadModule Demo.host Demo.v8 1 "leaf" Demo.loaded_once)
    as [[[module|] w']| |] eqn:E; try (vm_compute in E; discriminate E).
  exists module, w'. split; [reflexivity|].
  destruct (first_module_wins Demo.host Demo.v8 _ _ _ _ _
              Demo_cache_wf_once E) as (Hi & _ & _ & Hr).
  split; [exact Hi|]. rewrite Hr. reflexivity.
Defined.

(** [top] reaches [leaf] along two paths: it is fetched twice. *)
Lemma fetched_once_per_path_witness :
  ∃ module w',
    LoadModule Demo.host Demo.v8 3 "top" Demo.fresh = Done (Some module, w') ∧
    paths Demo.host Demo.v8 (id Demo.fresh) 3 "top" "leaf" = 2%nat ∧
    fetches "leaf" (events w') = 2%nat.
Proof.
  destruct (LoadModule Demo.host Demo.v8 3 "top" Demo.fresh)
    as [[[module|] w']| |] eqn:E; try (vm_compute in E; discriminate E).
  exists module, w'. split; [reflexivity|]. split; [reflexivity|].
  rewrite (proj1 (fetched_once_per_path Demo.host Demo.v8 3 3 _ "leaf" _ _ _
                    E (le_n 3))).
  reflexivity.
Defined.

(** The load of [root] stops at [bad]. *)
Lemma load_stops_at_first_failure_witness :
  ∃ w',
    LoadModule Demo.host Demo.v8 3 "root" Demo.fresh = Done (None, w') ∧
    ∃ pre v e,
      events w' = events Demo.fresh ++ pre ++
        [getModuleSource_call (id Demo.fresh) v; CompileModule_call v] ∧
      compiled Demo.host Demo.v8 (id Demo.fresh) v = inl e ∧
      try_catch w' = Some e.
Proof.
  destruct (LoadModule Demo.host Demo.v8 3 "root" Demo.fresh)
    as [[[module|] w']| |] eqn:E; try (vm_compute in E; discriminate E).
  exists w'. split; [reflexivity|].
  exact (load_stops_at_first_failure Demo.host Demo.v8 _ _ _ _ E).
Defined.

(** [root] stays in the map though [bad], below it, does not compile. *)
Lemma failed_load_keeps_root_witness :
  compiled Demo.host Demo.v8 (id Demo.fresh) "root"
    = inr (Demo.importing ["mid"]) ∧
  ∃ w',
    LoadModule Demo.host Demo.v8 3 "root" Demo.fresh = Done (None, w') ∧
    ResolveModuleCallback (module_data w') "root" = Some 0%nat.
Proof.
  split; [reflexivity|].
  destruct (LoadModule Demo.host Demo.v8 3 "root" Demo.fresh)
    as [[[module|] w']| |] eqn:E; try (vm_compute in E; discriminate E).
  exists w'. split; [reflexivity|].
  rewrite (failed_load_keeps_root Demo.host Demo.v8 3 "root" Demo.fresh w'
             (Demo.importing ["mid"]) None eq_refl E).
  reflexivity.
Defined.

(** ** A failing import behind a cycle, and a NUL in a diagnostic *)

(** [root2] and [hub] import [a], which imports [b], which imports [a],
    before they import [bad]: the load is in the cycle before it gets to
    [bad]. *)
Lemma LoadModule_behind_cycle (fuel : nat) (w : worker) :
  LoadModule Demo.host Demo.v8 fuel "root2" w = OutOfFuel ∧
  LoadModule Demo.host Demo.v8 fuel "hub" w = OutOfFuel.
Proof.
  destruct fuel as [|fuel]; [split; reflexivity|]. split.
  - rewrite (LoadModule_compiled Demo.host Demo.v8 fuel "root2" w
               (Demo.importing ["a"; "bad"]) eq_refl).
    cbn [Demo.importing GetModuleRequests load_requests].
    rewrite (proj1 (LoadModule_cycle fuel _)). reflexivity.
  - rewrite (LoadModule_compiled Demo.host Demo.v8 fuel "hub" w
               (Demo.importing ["a"; "bad"]) eq_refl).
    cbn [Demo.importing GetModuleRequests load_requests].
    rewrite (proj1 (LoadModule_cycle fuel _)). reflexivity.
Qed.

(** C3, on the code.  [root2] imports [a] and [bad]; [bad] is in its
    graph and does not compile, and [a] and [b] import each other.
    [worker_load_module] on [root2] does not return 1: it does not return,
    whatever depth of recursion it is given. *)
Theorem failing_import_behind_cycle (fuel : nat) (w : worker) :
  reach Demo.host Demo.v8 (id w) "root2" "bad" ∧
  compiled Demo.host Demo.v8 (id w) "bad"
    = inl (Demo.syntax_error "bad" "export =") ∧
  worker_load_module Demo.host Demo.v8 fuel "root2" w = OutOfFuel.
Proof.
  split; [|split; [reflexivity|]].
  - eapply (reach_import _ _ _ "root2" (Demo.importing ["a"; "bad"]) "bad");
      [reflexivity| |apply reach_here].
    apply list_elem_of_further, list_elem_of_here.
  - unfold worker_load_module.
    rewrite (proj1 (LoadModule_behind_cycle fuel _)). reflexivity.
Qed.

(** C7, on the code.  [root3] compiles and imports [hub], which imports
    [a] and [bad]; [bad] does not compile, and [a] and [b] import each
    other.  [worker_load_module] on [root3] does not return the code of a
    compile failure: it does not return, whatever depth of recursion it is
    given. *)
Theorem transitive_failure_behind_cycle (fuel : nat) (w : worker) :
  compiled Demo.host Demo.v8 (id w) "root3" = inr (Demo.importing ["hub"]) ∧
  reach Demo.host Demo.v8 (id w) "root3" "bad" ∧
  compiled Demo.host Demo.v8 (id w) "bad"
    = inl (Demo.syntax_error "bad" "export =") ∧
  worker_load_module Demo.host Demo.v8 fuel "root3" w = OutOfFuel.
Proof.
  split; [reflexivity|]. split; [|split; [reflexivity|]].
  - eapply (reach_import _ _ _ "root3" (Demo.importing ["hub"]) "hub");
      [reflexivity|apply list_elem_of_here|].
    eapply (reach_import _ _ _ "hub" (Demo.importing ["a"; "bad"]) "bad");
      [reflexivity| |apply reach_here].
    apply list_elem_of_further, list_elem_of_here.
  - unfold worker_load_module. destruct fuel as [|fuel]; [reflexivity|].
    rewrite (LoadModule_compiled Demo.host Demo.v8 fuel "root3" _
               (Demo.importing ["hub"]) eq_refl).
    cbn [Demo.importing GetModuleRequests load_requests].
    rewrite (proj2 (LoadModule_behind_cycle fuel _)). reflexivity.
Qed.

(** C6, as stated, fails on a string with a NUL.  For an exception whose
    stack trace starts with a NUL the last line of the diagnostic is
    empty, neither the stack trace nor the exception message; for one
    whose message holds a NUL the last line stops there. *)
Lemma diagnostic_cut_at_nul :
  ExceptionString (Some Demo.error_nul_first)
    = "main.js:1" +:+ nl +:+ "throw e" +:+ nl +:+ "^^^^^" +:+ nl +:+ nl ∧
  ExceptionString (Some Demo.error_with_nul)
    = "main.js:1" +:+ nl +:+ "throw new Error(m)" +:+ nl +:+ "^^^^^" +:+ nl
      +:+ "Error: a" +:+ nl ∧
  ¬ (∀ t, ExceptionString (Some t) = Diagnostic_layout t).
Proof.
  split; [vm_compute; reflexivity|]. split; [vm_compute; reflexivity|].
  intros H. specialize (H Demo.error_with_nul).
  vm_compute in H. discriminate H.
Qed.
